(** * Interactive core of the storefront: carousel, hover menu, search overlay, drawers

    A shallow embedding of the stateful logic of two React components:

    - [PopularProductsCarouselRow] of [ProductShowcase.tsx]
      ([updateScrollState], [handleArrowClick]);
    - [NavBar] of [NavBar.tsx] (the mega-menu hover handlers with their
      deferred close, [handleSearchToggle], the cart / wishlist drawers and
      the render guards of [SearchBar] and [DesktopMegaMenu]).

    Numbers.  DOM lengths that are integers by definition ([scrollWidth],
    [clientWidth], [offsetWidth], [window.innerWidth]) are [Z]; the other
    pixel quantities ([scrollLeft], the sides of a [DOMRect], computed
    offsets) are exact rationals [Q], compared with [==].  The literals
    [0.44] and [0.8] are the rationals 11/25 and 4/5.  This idealises the
    binary64 arithmetic of JavaScript: rounding error is not modelled.

    Time.  The host keeps a clock in milliseconds and a queue of pending
    timeouts; a timeout fires when the clock reaches its deadline, and the
    handlers of input events run between two such moments. *)

From Stdlib Require Import ZArith NArith QArith Qround Qminmax Bool List String Lia Lqa.
Import ListNotations.

Local Open Scope Z_scope.
Local Open Scope Q_scope.

(** ** JavaScript helpers *)

(** [x < y] on numbers, as a boolean. *)
Definition Qltb (x y : Q) : bool := negb (Qle_bool y x).

(** ** ProductShowcase.tsx: PopularProductsCarouselRow *)

Module Carousel.

(** The part of an [HTMLElement] child that the row reads. *)
Record HTMLElement := { offsetWidth : Z }.

(** The scroll container behind [trackRef]. *)
Record Track := {
  scrollLeft : Q;
  scrollWidth : Z;
  clientWidth : Z;
  firstElementChild : option HTMLElement;
}.

(** The three [useState] cells of the row. *)
Record RowState := {
  canScrollPrev : bool;
  canScrollNext : bool;
  scrollProgress : Q;
}.

Definition initialRowState : RowState :=
  {| canScrollPrev := false; canScrollNext := false; scrollProgress := 0 |}.

Definition setCanScrollPrev (b : bool) (s : RowState) : RowState :=
  {| canScrollPrev := b;
     canScrollNext := canScrollNext s;
     scrollProgress := scrollProgress s |}.

Definition setCanScrollNext (b : bool) (s : RowState) : RowState :=
  {| canScrollPrev := canScrollPrev s;
     canScrollNext := b;
     scrollProgress := scrollProgress s |}.

Definition setScrollProgress (p : Q) (s : RowState) : RowState :=
  {| canScrollPrev := canScrollPrev s;
     canScrollNext := canScrollNext s;
     scrollProgress := p |}.

(** [updateScrollState]: [trackRef] is [trackRef.current]. *)
Definition updateScrollState (trackRef : option Track) (s : RowState) : RowState :=
  match trackRef with
  | None => s
  | Some node =>
      let maxScroll := (scrollWidth node - clientWidth node)%Z in
      let s := setCanScrollPrev (Qltb 0 (scrollLeft node)) s in
      let s := setCanScrollNext
                 (Qltb (scrollLeft node) (inject_Z maxScroll - 1)) s in
      if (maxScroll <=? 0)%Z
      then setScrollProgress 100 s
      else setScrollProgress (scrollLeft node / inject_Z maxScroll * 100) s
  end.

(** The [direction: -1 | 1] argument of [handleArrowClick]. *)
Inductive Direction := Prev | Next.

Definition directionValue (d : Direction) : Q :=
  match d with Prev => -1 | Next => 1 end.

Inductive ScrollBehavior := smooth.

(** Argument of [node.scrollBy]. *)
Record ScrollToOptions := { left : Q; behavior : ScrollBehavior }.

(** [handleArrowClick]: the result is the [scrollBy] call it issues, or
    [None] when it returns without one. *)
Definition handleArrowClick (trackRef : option Track) (direction : Direction)
  : option ScrollToOptions :=
  match trackRef with
  | None => None
  | Some node =>
      let firstChild := firstElementChild node in
      let GAP_PX := 20 in
      let step :=
        match firstChild with
        | Some el => inject_Z (offsetWidth el)
        | None => inject_Z (clientWidth node) * 0.8
        end
        + match firstChild with Some _ => GAP_PX | None => 0 end in
      Some {| left := directionValue direction * step; behavior := smooth |}
  end.

(** Largest scroll offset of a track. *)
Definition maxScrollOf (node : Track) : Z :=
  (scrollWidth node - clientWidth node)%Z.

Definition withScrollLeft (o : Q) (node : Track) : Track :=
  {| scrollLeft := o;
     scrollWidth := scrollWidth node;
     clientWidth := clientWidth node;
     firstElementChild := firstElementChild node |}.

(** Modelled from the spec: the scroll host, which is the browser and not
    part of the sources.  It accepts "scroll by delta" commands and keeps
    the offset inside [0, contentExtent - viewportExtent]; the value below
    is the offset at which the animated scroll comes to rest. *)
Definition scrollBy (node : Track) (opts : ScrollToOptions) : Track :=
  withScrollLeft
    (Qmax 0 (Qmin (scrollLeft node + left opts)
                  (inject_Z (Z.max 0 (maxScrollOf node)))))
    node.

(** What the DOM guarantees of a scroll container: lengths are not
    negative, the content is at least as wide as the box, and the offset
    lies between 0 and the largest scroll offset. *)
Definition Track_ok (node : Track) : bool :=
  (0 <=? clientWidth node)%Z
  && (clientWidth node <=? scrollWidth node)%Z
  && match firstElementChild node with
     | Some el => (0 <=? offsetWidth el)%Z
     | None => true
     end
  && Qle_bool 0 (scrollLeft node)
  && Qle_bool (scrollLeft node) (inject_Z (maxScrollOf node)).

(** The progress value that [updateScrollState] stores when the track is
    at offset [o]. *)
Definition progressAt (node : Track) (o : Q) : Q :=
  scrollProgress (updateScrollState (Some (withScrollLeft o node)) initialRowState).

(** The step of one arrow click to the right in the words of the
    specification: first card plus gap, or 80% of the viewport when the
    track has no child. *)
Definition stepOf (node : Track) : Q :=
  match firstElementChild node with
  | Some el => inject_Z (offsetWidth el) + 20
  | None => 0.8 * inject_Z (clientWidth node)
  end.

(** ** Sample tracks *)

(** 1000 px of cards, 280 px each, in a 400 px viewport. *)
Definition sampleTrack : Track :=
  {| scrollLeft := 0;
     scrollWidth := 1000;
     clientWidth := 400;
     firstElementChild := Some {| offsetWidth := 280 |} |}.

(** A row without products: nothing to scroll. *)
Definition emptyTrack : Track :=
  {| scrollLeft := 0;
     scrollWidth := 1152;
     clientWidth := 1152;
     firstElementChild := None |}.

(** ** One arrow click, end to end *)

(** One run of [handleArrowClick] followed by the scroll the host performs
    for it: what a click on an arrow that is enabled sets off. *)
Definition click (direction : Direction) (node : Track) : Track :=
  match handleArrowClick (Some node) direction with
  | Some opts => scrollBy node opts
  | None => node
  end.

(** ** The row with its arrow buttons *)

(** The track together with the state the row was last rendered from. *)
Record Row := { track : Track; rowState : RowState }.

(** Mounting runs the effect, which calls [updateScrollState] once. *)
Definition mountRow (node : Track) : Row :=
  {| track := node; rowState := updateScrollState (Some node) initialRowState |}.

(** The left button is [disabled={!canScrollPrev}], the right button
    [disabled={!canScrollNext}]. *)
Definition arrowEnabled (direction : Direction) (s : RowState) : bool :=
  match direction with
  | Prev => canScrollPrev s
  | Next => canScrollNext s
  end.

(** A press on an arrow button.  A disabled button does nothing.  An
    enabled one runs [handleArrowClick]; if the offset moves, the scroll
    event runs [updateScrollState] ([onScroll] of the track), and if it
    does not move there is no scroll event. *)
Definition pressArrow (direction : Direction) (r : Row) : Row :=
  if arrowEnabled direction (rowState r) then
    let node' := click direction (track r) in
    if Qeq_bool (scrollLeft node') (scrollLeft (track r)) then r
    else {| track := node';
            rowState := updateScrollState (Some node') (rowState r) |}
  else r.

(** [n] presses on the right arrow. *)
Fixpoint pressNextTimes (n : nat) (r : Row) : Row :=
  match n with
  | O => r
  | S n' => pressNextTimes n' (pressArrow Next r)
  end.

(** The rendered state is the one [updateScrollState] computes from the
    track as it is now. *)
Definition inSync (r : Row) : Prop :=
  rowState r = updateScrollState (Some (track r)) initialRowState.

(** A track whose first child has no width: an empty card. *)
Definition emptyCardTrack : Track :=
  {| scrollLeft := 0;
     scrollWidth := 1000;
     clientWidth := 400;
     firstElementChild := Some {| offsetWidth := 0 |} |}.

(** 360 px cards, a step of 380 px, in a track that overflows by 761 px. *)
Definition unevenTrack : Track :=
  {| scrollLeft := 0;
     scrollWidth := 1761;
     clientWidth := 1000;
     firstElementChild := Some {| offsetWidth := 360 |} |}.

End Carousel.

(** ** NavBar.tsx: configuration *)

Module NavBar.

Local Open Scope string_scope.

(** An individual text link inside a mega menu column. *)
Record NavLink := { linkLabel : string; linkHref : option string }.

(** A titled column in a mega menu. *)
Record NavColumn := { heading : string; links : list NavLink }.

(** An image tile shown on the right side of a mega menu. *)
Record NavImageTile := {
  tileLabel : string;
  imageSrc : string;
  tileHref : option string;
}.

Inductive PrimaryNavItemId := men | women | explore | sustainability | help.

Definition PrimaryNavItemId_eqb (a b : PrimaryNavItemId) : bool :=
  match a, b with
  | men, men | women, women | explore, explore
  | sustainability, sustainability | help, help => true
  | _, _ => false
  end.

Record PrimaryNavItem := {
  id : PrimaryNavItemId;
  label : string;
  hasMegaMenu : bool;
  columns : option (list NavColumn);
  imageTiles : option (list NavImageTile);
}.

Definition link (l : string) : NavLink := {| linkLabel := l; linkHref := None |}.

Definition tile (l src : string) : NavImageTile :=
  {| tileLabel := l; imageSrc := src; tileHref := None |}.

Definition cdn : string :=
  "https://pub-cdn.sider.ai/u/U0R7HRXYJ5L/web-coder/6953c926f028f342ba3548f9/resource/".

Definition NAV_ITEMS : list PrimaryNavItem :=
  [ {| id := men; label := "Men"; hasMegaMenu := true;
       columns := Some
         [ {| heading := "Shop by type";
              links := [link "Men’s Raincoats"; link "Accessories"; link "Archive sale"] |};
           {| heading := "Shop by category";
              links := [link "Formal & Classic"; link "Signature Styles"] |};
           {| heading := "Shop by season";
              links := [link "All year"; link "Winter"; link "Summer"] |} ];
       imageTiles := Some
         [ tile "Signature Styles" (cdn ++ "419a1660-d1d0-4ca0-aac9-f18ef9aac5b1.jpg");
           tile "Formal & Classic" (cdn ++ "c223c13e-1365-47e3-aea7-9e9d2fad8418.jpg") ] |};
    {| id := women; label := "Women"; hasMegaMenu := true;
       columns := Some
         [ {| heading := "Shop by type";
              links := [link "Women’s Raincoats"; link "Accessories"; link "Archive sale"] |};
           {| heading := "Shop by category";
              links := [link "Formal & Classic"; link "Signature Styles"] |};
           {| heading := "Shop by season";
              links := [link "All year"; link "Winter"; link "Summer"] |} ];
       imageTiles := Some
         [ tile "Signature Styles" (cdn ++ "41f9b6b2-833b-477f-9c4c-93316d210593.jpg");
           tile "Formal & Classic" (cdn ++ "0970f5d5-8bc7-4063-a38d-0d488770a976.jpg") ] |};
    {| id := explore; label := "Explore"; hasMegaMenu := true;
       columns := Some
         [ {| heading := "About";
              links := [link "History"; link "Technology and features"] |};
           {| heading := "Stores";
              links := [link "Bergen Flagship Store"; link "Oslobukta Flagship Store";
                        link "Paris Flagship Store"; link "Tokyo Flagship Store"] |};
           {| heading := "News"; links := [link "Latest stories"] |} ];
       imageTiles := Some
         [ tile "Sustainability" (cdn ++ "38eef172-2e0a-407d-85c6-f9aef9b7c643.jpg");
           tile "Technology and features" (cdn ++ "a90613a9-2b90-4367-9a95-ed19aa6a9073.jpg") ] |};
    {| id := sustainability; label := "Sustainability"; hasMegaMenu := false;
       columns := None; imageTiles := None |};
    {| id := help; label := "Help"; hasMegaMenu := true;
       columns := Some
         [ {| heading := "Customer Service";
              links := [link "Customer Service"; link "FAQ"; link "Shipping information";
                        link "Return Policy"; link "Warranty"; link "Contact us"] |} ];
       imageTiles := None |} ].

(** The button rendered for [itemId] by [NAV_ITEMS.map]. *)
Definition navItem (itemId : PrimaryNavItemId) : option PrimaryNavItem :=
  find (fun i => PrimaryNavItemId_eqb (id i) itemId) NAV_ITEMS.

(** ** Host objects: rectangles, inline styles, timers *)

Module DOMRect.
Record t := { left : Q; top : Q; width : Q; bottom : Q }.
End DOMRect.

Module CSSProperties.
Inductive Position := absolute.
Record t := {
  position : option Position;
  left : option Q;
  top : option Q;
  width : option Z;
  zIndex : option Z;
}.
End CSSProperties.

Definition TimerId := Z.

(** The one function ever handed to [window.setTimeout]: the arrow
    function of [scheduleMegaMenuClose]. *)
Inductive TimerCallback := CloseMegaMenu.

Record Timer := { handle : TimerId; deadline : Z; callback : TimerCallback }.

Local Open Scope Z_scope.

(** ** Component state *)

(** The [useState] cells of [NavBar]. *)
Record State := {
  activeDesktopMenu : option PrimaryNavItemId;
  isMobileMenuOpen : bool;
  isLocationDrawerOpen : bool;
  isCartDrawerOpen : bool;
  isWishlistDrawerOpen : bool;
  isSearchBarOpen : bool;
  isHovered : bool;
  isAtTop : bool;
  searchBarStyle : option CSSProperties.t;
}.

(** The [useRef] cells.  An element ref holds the element, seen through
    the rectangle [getBoundingClientRect] returns for it, or [None] for
    [null]. *)
Record Refs := {
  wrapperRef : option DOMRect.t;
  headerRef : option DOMRect.t;
  searchButtonRef : option DOMRect.t;
  megaMenuCloseTimeoutRef : option TimerId;
}.

(** The [window] object: viewport, scroll position and the timer queue.
    [now] is the clock in milliseconds, [timers] the pending timeouts in
    the order they were armed, [fired] the handles whose callback has run
    (most recent first). *)
Record Window := {
  innerWidth : Z;
  scrollY : Q;
  now : Z;
  timers : list Timer;
  nextTimerId : TimerId;
  fired : list TimerId;
}.

Record World := { state : State; refs : Refs; window : Window }.

Definition initialState : State :=
  {| activeDesktopMenu := None;
     isMobileMenuOpen := false;
     isLocationDrawerOpen := false;
     isCartDrawerOpen := false;
     isWishlistDrawerOpen := false;
     isSearchBarOpen := false;
     isHovered := false;
     isAtTop := true;
     searchBarStyle := None |}.

(** ** Handlers run in a state monad with JavaScript exceptions *)

Inductive JsError := TypeError.

Inductive Completion (A : Type) :=
| Normal (a : A)
| Throw (e : JsError).
Arguments Normal {A} a.
Arguments Throw {A} e.

Definition M (A : Type) : Type := World -> Completion (A * World).

Definition ret {A} (a : A) : M A := fun w => Normal (a, w).

Definition bind {A B} (m : M A) (k : A -> M B) : M B :=
  fun w => match m w with
           | Normal (a, w') => k a w'
           | Throw e => Throw e
           end.

Definition throw {A} (e : JsError) : M A := fun _ => Throw e.

Notation "x <- m ;; k" := (bind m (fun x => k))
  (at level 61, m at next level, right associativity).
Notation "m ;; k" := (bind m (fun _ => k))
  (at level 61, right associativity).

Definition get : M World := fun w => Normal (w, w).

Definition modifyState (f : State -> State) : M unit :=
  fun w => Normal (tt, {| state := f (state w); refs := refs w; window := window w |}).

Definition modifyRefs (f : Refs -> Refs) : M unit :=
  fun w => Normal (tt, {| state := state w; refs := f (refs w); window := window w |}).

Definition modifyWindow (f : Window -> Window) : M unit :=
  fun w => Normal (tt, {| state := state w; refs := refs w; window := f (window w) |}).

(** The state setters returned by [useState]. *)
Definition setActiveDesktopMenu (v : option PrimaryNavItemId) : M unit :=
  modifyState (fun s =>
    {| activeDesktopMenu := v;
       isMobileMenuOpen := isMobileMenuOpen s;
       isLocationDrawerOpen := isLocationDrawerOpen s;
       isCartDrawerOpen := isCartDrawerOpen s;
       isWishlistDrawerOpen := isWishlistDrawerOpen s;
       isSearchBarOpen := isSearchBarOpen s;
       isHovered := isHovered s;
       isAtTop := isAtTop s;
       searchBarStyle := searchBarStyle s |}).

Definition setIsMobileMenuOpen (v : bool) : M unit :=
  modifyState (fun s =>
    {| activeDesktopMenu := activeDesktopMenu s;
       isMobileMenuOpen := v;
       isLocationDrawerOpen := isLocationDrawerOpen s;
       isCartDrawerOpen := isCartDrawerOpen s;
       isWishlistDrawerOpen := isWishlistDrawerOpen s;
       isSearchBarOpen := isSearchBarOpen s;
       isHovered := isHovered s;
       isAtTop := isAtTop s;
       searchBarStyle := searchBarStyle s |}).

Definition setIsLocationDrawerOpen (v : bool) : M unit :=
  modifyState (fun s =>
    {| activeDesktopMenu := activeDesktopMenu s;
       isMobileMenuOpen := isMobileMenuOpen s;
       isLocationDrawerOpen := v;
       isCartDrawerOpen := isCartDrawerOpen s;
       isWishlistDrawerOpen := isWishlistDrawerOpen s;
       isSearchBarOpen := isSearchBarOpen s;
       isHovered := isHovered s;
       isAtTop := isAtTop s;
       searchBarStyle := searchBarStyle s |}).

Definition setIsCartDrawerOpen (v : bool) : M unit :=
  modifyState (fun s =>
    {| activeDesktopMenu := activeDesktopMenu s;
       isMobileMenuOpen := isMobileMenuOpen s;
       isLocationDrawerOpen := isLocationDrawerOpen s;
       isCartDrawerOpen := v;
       isWishlistDrawerOpen := isWishlistDrawerOpen s;
       isSearchBarOpen := isSearchBarOpen s;
       isHovered := isHovered s;
       isAtTop := isAtTop s;
       searchBarStyle := searchBarStyle s |}).

Definition setIsWishlistDrawerOpen (v : bool) : M unit :=
  modifyState (fun s =>
    {| activeDesktopMenu := activeDesktopMenu s;
       isMobileMenuOpen := isMobileMenuOpen s;
       isLocationDrawerOpen := isLocationDrawerOpen s;
       isCartDrawerOpen := isCartDrawerOpen s;
       isWishlistDrawerOpen := v;
       isSearchBarOpen := isSearchBarOpen s;
       isHovered := isHovered s;
       isAtTop := isAtTop s;
       searchBarStyle := searchBarStyle s |}).

Definition setIsSearchBarOpen (v : bool) : M unit :=
  modifyState (fun s =>
    {| activeDesktopMenu := activeDesktopMenu s;
       isMobileMenuOpen := isMobileMenuOpen s;
       isLocationDrawerOpen := isLocationDrawerOpen s;
       isCartDrawerOpen := isCartDrawerOpen s;
       isWishlistDrawerOpen := isWishlistDrawerOpen s;
       isSearchBarOpen := v;
       isHovered := isHovered s;
       isAtTop := isAtTop s;
       searchBarStyle := searchBarStyle s |}).

Definition setIsHovered (v : bool) : M unit :=
  modifyState (fun s =>
    {| activeDesktopMenu := activeDesktopMenu s;
       isMobileMenuOpen := isMobileMenuOpen s;
       isLocationDrawerOpen := isLocationDrawerOpen s;
       isCartDrawerOpen := isCartDrawerOpen s;
       isWishlistDrawerOpen := isWishlistDrawerOpen s;
       isSearchBarOpen := isSearchBarOpen s;
       isHovered := v;
       isAtTop := isAtTop s;
       searchBarStyle := searchBarStyle s |}).

Definition setIsAtTop (v : bool) : M unit :=
  modifyState (fun s =>
    {| activeDesktopMenu := activeDesktopMenu s;
       isMobileMenuOpen := isMobileMenuOpen s;
       isLocationDrawerOpen := isLocationDrawerOpen s;
       isCartDrawerOpen := isCartDrawerOpen s;
       isWishlistDrawerOpen := isWishlistDrawerOpen s;
       isSearchBarOpen := isSearchBarOpen s;
       isHovered := isHovered s;
       isAtTop := v;
       searchBarStyle := searchBarStyle s |}).

Definition setSearchBarStyle (v : option CSSProperties.t) : M unit :=
  modifyState (fun s =>
    {| activeDesktopMenu := activeDesktopMenu s;
       isMobileMenuOpen := isMobileMenuOpen s;
       isLocationDrawerOpen := isLocationDrawerOpen s;
       isCartDrawerOpen := isCartDrawerOpen s;
       isWishlistDrawerOpen := isWishlistDrawerOpen s;
       isSearchBarOpen := isSearchBarOpen s;
       isHovered := isHovered s;
       isAtTop := isAtTop s;
       searchBarStyle := v |}).

(** [megaMenuCloseTimeoutRef.current = v]. *)
Definition setMegaMenuCloseTimeoutRef (v : option TimerId) : M unit :=
  modifyRefs (fun r =>
    {| wrapperRef := wrapperRef r;
       headerRef := headerRef r;
       searchButtonRef := searchButtonRef r;
       megaMenuCloseTimeoutRef := v |}).

(** ** window.setTimeout / window.clearTimeout *)

Definition setTimeout (cb : TimerCallback) (delay : Z) : M TimerId :=
  w <- get ;;
  let h := nextTimerId (window w) in
  modifyWindow (fun win =>
    {| innerWidth := innerWidth win;
       scrollY := scrollY win;
       now := now win;
       timers := timers win
                 ++ [{| handle := h; deadline := now win + delay; callback := cb |}];
       nextTimerId := h + 1;
       fired := fired win |}) ;;
  ret h.

Definition clearTimeout (h : TimerId) : M unit :=
  modifyWindow (fun win =>
    {| innerWidth := innerWidth win;
       scrollY := scrollY win;
       now := now win;
       timers := filter (fun t => negb (handle t =? h)) (timers win);
       nextTimerId := nextTimerId win;
       fired := fired win |}).

(** [getBoundingClientRect()] called on the content of an element ref;
    calling a method on [null] is a [TypeError]. *)
Definition getBoundingClientRect (el : option DOMRect.t) : M DOMRect.t :=
  match el with
  | Some r => ret r
  | None => throw TypeError
  end.

(** JavaScript truthiness of an object-or-null value. *)
Definition truthy {A} (v : option A) : bool :=
  match v with Some _ => true | None => false end.

(** ** The handlers of NavBar *)

Definition clearMegaMenuCloseTimeout : M unit :=
  w <- get ;;
  match megaMenuCloseTimeoutRef (refs w) with
  | Some h =>
      clearTimeout h ;;
      setMegaMenuCloseTimeoutRef None
  | None => ret tt
  end.

(** The body of the arrow function armed by [scheduleMegaMenuClose]. *)
Definition runCallback (cb : TimerCallback) : M unit :=
  match cb with
  | CloseMegaMenu =>
      setActiveDesktopMenu None ;;
      setMegaMenuCloseTimeoutRef None
  end.

Definition scheduleMegaMenuClose : M unit :=
  clearMegaMenuCloseTimeout ;;
  h <- setTimeout CloseMegaMenu 140 ;;
  setMegaMenuCloseTimeoutRef (Some h).

Definition handleDesktopItemHover (itemId : option PrimaryNavItemId) : M unit :=
  match itemId with
  | Some i =>
      clearMegaMenuCloseTimeout ;;
      setActiveDesktopMenu (Some i)
  | None => setActiveDesktopMenu None
  end.

Definition openLocationDrawer : M unit := setIsLocationDrawerOpen true.
Definition closeLocationDrawer : M unit := setIsLocationDrawerOpen false.
Definition openMobileMenu : M unit := setIsMobileMenuOpen true.
Definition closeMobileMenu : M unit := setIsMobileMenuOpen false.

Definition openCartDrawer : M unit :=
  setIsCartDrawerOpen true ;;
  setIsWishlistDrawerOpen false.

Definition closeCartDrawer : M unit := setIsCartDrawerOpen false.

Definition openWishlistDrawer : M unit :=
  setIsWishlistDrawerOpen true ;;
  setIsCartDrawerOpen false.

Definition closeWishlistDrawer : M unit := setIsWishlistDrawerOpen false.

Definition handleSearchToggle : M unit :=
  w <- get ;;
  setActiveDesktopMenu None ;;
  if isSearchBarOpen (state w) then
    setIsSearchBarOpen false ;;
    setSearchBarStyle None
  else
    let btn := searchButtonRef (refs w) in
    let hdr := headerRef (refs w) in
    let wrap := wrapperRef (refs w) in
    if negb (truthy btn) || negb (truthy hdr) || negb (truthy wrap) then
      setIsSearchBarOpen true ;;
      setSearchBarStyle None
    else
      let computedWidth :=
        Z.min 800 (Z.max 320 (Qfloor (inject_Z (innerWidth (window w)) * 0.44))) in
      btnRect <- getBoundingClientRect btn ;;
      hdrRect <- getBoundingClientRect hdr ;;
      wrapRect <- getBoundingClientRect wrap ;;
      let left :=
        (DOMRect.left btnRect + DOMRect.width btnRect / 2
         - inject_Z computedWidth / 2)%Q in
      let left :=
        Qmax 12 (Qmin left (inject_Z (innerWidth (window w) - computedWidth - 12))) in
      let top := Qmax 0 (DOMRect.bottom hdrRect - DOMRect.top wrapRect + 8)%Q in
      setSearchBarStyle
        (Some {| CSSProperties.position := Some CSSProperties.absolute;
                 CSSProperties.left := Some left;
                 CSSProperties.top := Some top;
                 CSSProperties.width := Some computedWidth;
                 CSSProperties.zIndex := Some 72 |}) ;;
      setIsSearchBarOpen true.

(** [onMouseEnter] of the button that [NAV_ITEMS.map] renders for an item. *)
Definition navButtonOnMouseEnter (item : PrimaryNavItem) : M unit :=
  if hasMegaMenu item
  then handleDesktopItemHover (Some (id item))
  else handleDesktopItemHover None.

(** [onClick] of the hamburger button. *)
Definition hamburgerOnClick : M unit :=
  w <- get ;;
  if isMobileMenuOpen (state w) then closeMobileMenu else openMobileMenu.

(** The scroll listener installed by the first effect. *)
Definition onScroll : M unit :=
  w <- get ;;
  setIsAtTop (Qle_bool (scrollY (window w)) 8).

(** ** The event loop *)

(** The first pending timer that is due at time [t].  Every timeout of
    this component has the same delay, so arming order is deadline order. *)
Definition nextDue (t : Z) (pending : list Timer) : option Timer :=
  find (fun tm => deadline tm <=? t) pending.

(** Take a due timer off the queue and log its handle, as the host does
    just before it calls the callback. *)
Definition takeTimer (tm : Timer) : M unit :=
  modifyWindow (fun win =>
    {| innerWidth := innerWidth win;
       scrollY := scrollY win;
       now := now win;
       timers := filter (fun t => negb (handle t =? handle tm)) (timers win);
       nextTimerId := nextTimerId win;
       fired := handle tm :: fired win |}).

(** Run the callbacks of the timers that are due, one after the other. *)
Fixpoint runDueTimers (fuel : nat) : M unit :=
  match fuel with
  | O => ret tt
  | S fuel' =>
      w <- get ;;
      match nextDue (now (window w)) (timers (window w)) with
      | None => ret tt
      | Some tm =>
          takeTimer tm ;;
          runCallback (callback tm) ;;
          runDueTimers fuel'
      end
  end.

(** [ms] milliseconds pass without any input event: the clock advances
    and the timers that became due fire.  No callback of this component
    arms a timer, so one round per pending timer is enough. *)
Definition elapse (ms : N) : M unit :=
  modifyWindow (fun win =>
    {| innerWidth := innerWidth win;
       scrollY := scrollY win;
       now := now win + Z.of_N ms;
       timers := timers win;
       nextTimerId := nextTimerId win;
       fired := fired win |}) ;;
  w <- get ;;
  runDueTimers (List.length (timers (window w))).

(** The page scrolls to [y]; the scroll listener runs. *)
Definition windowScroll (y : Q) : M unit :=
  modifyWindow (fun win =>
    {| innerWidth := innerWidth win;
       scrollY := y;
       now := now win;
       timers := timers win;
       nextTimerId := nextTimerId win;
       fired := fired win |}) ;;
  onScroll.

(** What the layout engine decides: the viewport width and the elements
    behind the three element refs. *)
Record Layout := {
  viewportWidth : Z;
  wrapperEl : option DOMRect.t;
  headerEl : option DOMRect.t;
  searchButtonEl : option DOMRect.t;
}.

Definition relayout (l : Layout) : M unit :=
  modifyWindow (fun win =>
    {| innerWidth := viewportWidth l;
       scrollY := scrollY win;
       now := now win;
       timers := timers win;
       nextTimerId := nextTimerId win;
       fired := fired win |}) ;;
  modifyRefs (fun r =>
    {| wrapperRef := wrapperEl l;
       headerRef := headerEl l;
       searchButtonRef := searchButtonEl l;
       megaMenuCloseTimeoutRef := megaMenuCloseTimeoutRef r |}).

Inductive Event :=
| WrapperMouseEnter
| WrapperMouseLeave
| HeaderMouseEnter
| HeaderMouseLeave
| NavButtonMouseEnter (itemId : PrimaryNavItemId)
| HamburgerClick
| LocationButtonClick
| SearchButtonClick
| WishlistButtonClick
| CartButtonClick
| MobileMenuClose
| LocationDrawerClose
| CartDrawerClose
| WishlistDrawerClose
| WindowScroll (y : Q)
| Relayout (l : Layout)
| Elapse (ms : N).

(** The handler that the JSX of [NavBar] binds to each event. *)
Definition dispatch (ev : Event) : M unit :=
  match ev with
  | WrapperMouseEnter => clearMegaMenuCloseTimeout
  | WrapperMouseLeave => scheduleMegaMenuClose
  | HeaderMouseEnter => setIsHovered true
  | HeaderMouseLeave => setIsHovered false
  | NavButtonMouseEnter itemId =>
      match navItem itemId with
      | Some item => navButtonOnMouseEnter item
      | None => ret tt
      end
  | HamburgerClick => hamburgerOnClick
  | LocationButtonClick => openLocationDrawer
  | SearchButtonClick => handleSearchToggle
  | WishlistButtonClick => openWishlistDrawer
  | CartButtonClick => openCartDrawer
  | MobileMenuClose => closeMobileMenu
  | LocationDrawerClose => closeLocationDrawer
  | CartDrawerClose => closeCartDrawer
  | WishlistDrawerClose => closeWishlistDrawer
  | WindowScroll y => windowScroll y
  | Relayout l => relayout l
  | Elapse ms => elapse ms
  end.

Fixpoint run (evs : list Event) : M unit :=
  match evs with
  | [] => ret tt
  | ev :: evs' => dispatch ev ;; run evs'
  end.

(** The component as React creates it on a page laid out as [l] and
    scrolled to [y]: every [useState] at its initial value, the element
    refs filled in, no timer armed. *)
Definition created (l : Layout) (y : Q) : World :=
  {| state := initialState;
     refs :=
       {| wrapperRef := wrapperEl l;
          headerRef := headerEl l;
          searchButtonRef := searchButtonEl l;
          megaMenuCloseTimeoutRef := None |};
     window :=
       {| innerWidth := viewportWidth l;
          scrollY := y;
          now := 0;
          timers := [];
          nextTimerId := 1;
          fired := [] |} |}.

(** Mounting runs the first effect, which calls [onScroll] once. *)
Definition mount (l : Layout) (y : Q) : World :=
  match onScroll (created l y) with
  | Normal (_, w) => w
  | Throw _ => created l y
  end.

(** The worlds the component can be in. *)
Inductive reachable : World -> Prop :=
| reachable_mount l y : reachable (mount l y)
| reachable_step w ev w' :
    reachable w -> dispatch ev w = Normal (tt, w') -> reachable w'.

(** ** Rendering *)

(** [SearchBar]: the inline style of its outer element. *)
Definition SearchBar (style : option CSSProperties.t) : CSSProperties.t :=
  let field {A} (f : CSSProperties.t -> option A) : option A :=
    match style with Some st => f st | None => None end in
  {| CSSProperties.position := None;
     CSSProperties.left := field CSSProperties.left;
     CSSProperties.top := field CSSProperties.top;
     CSSProperties.width := field CSSProperties.width;
     CSSProperties.zIndex :=
       match field CSSProperties.zIndex with
       | Some z => Some z
       | None => Some 72
       end |}.

(** [DesktopMegaMenu]: the item whose panel is drawn, [None] for [null]. *)
Definition DesktopMegaMenu (item : PrimaryNavItem) : option PrimaryNavItem :=
  match columns item with
  | None | Some [] => None
  | Some (_ :: _) => Some item
  end.

Definition currentMegaItem (s : State) : option PrimaryNavItem :=
  match activeDesktopMenu s with
  | Some a =>
      find (fun i => PrimaryNavItemId_eqb (id i) a && hasMegaMenu i) NAV_ITEMS
  | None => None
  end.

Definition showSolid (s : State) : bool :=
  negb (isAtTop s) || isHovered s || truthy (currentMegaItem s).

(** What [NavBar] returns, reduced to which overlays are on screen. *)
Record View := {
  searchBarView : option CSSProperties.t;
  desktopMegaMenuView : option PrimaryNavItem;
  mobileMenuView : bool;
  locationDrawerView : bool;
  cartDrawerView : bool;
  wishlistDrawerView : bool;
}.

Definition render (s : State) : View :=
  {| searchBarView :=
       if isSearchBarOpen s then Some (SearchBar (searchBarStyle s)) else None;
     desktopMegaMenuView :=
       match currentMegaItem s with
       | Some item => if negb (isSearchBarOpen s) then DesktopMegaMenu item else None
       | None => None
       end;
     mobileMenuView := isMobileMenuOpen s;
     locationDrawerView := isLocationDrawerOpen s;
     cartDrawerView := isCartDrawerOpen s;
     wishlistDrawerView := isWishlistDrawerOpen s |}.

(** ** Notions used in the statements *)

(** The item behind a menu identifier has a panel. *)
Definition hasPanel (itemId : PrimaryNavItemId) : bool :=
  match navItem itemId with
  | Some item => hasMegaMenu item
  | None => false
  end.

(** No close is pending: the ref is [null] and the timer queue is empty. *)
Definition idle (w : World) : Prop :=
  megaMenuCloseTimeoutRef (refs w) = None /\ timers (window w) = [].

(** One close is pending: the ref holds [h], and the queue holds exactly
    the timer [h], due at [due]. *)
Definition armed (h : TimerId) (due : Z) (w : World) : Prop :=
  megaMenuCloseTimeoutRef (refs w) = Some h
  /\ timers (window w) = [{| handle := h; deadline := due; callback := CloseMegaMenu |}].

Definition timers_ok (w : World) : Prop :=
  idle w \/ exists h due, armed h due w.

(** Two worlds agree on everything the hover menu depends on. *)
Definition sameHover (w w' : World) : Prop :=
  activeDesktopMenu (state w') = activeDesktopMenu (state w)
  /\ megaMenuCloseTimeoutRef (refs w') = megaMenuCloseTimeoutRef (refs w)
  /\ timers (window w') = timers (window w)
  /\ fired (window w') = fired (window w)
  /\ now (window w') = now (window w).

(** Events that can happen while the pointer is outside the hover zone
    (the wrapper): time passing, scrolling, layout changes and the close
    controls of the drawers, which are rendered outside the wrapper. *)
Definition pointerOutside (ev : Event) : bool :=
  match ev with
  | MobileMenuClose | LocationDrawerClose | CartDrawerClose | WishlistDrawerClose
  | WindowScroll _ | Relayout _ | Elapse _ => true
  | _ => false
  end.

(** Milliseconds that pass during a list of events. *)
Fixpoint elapsed (evs : list Event) : N :=
  match evs with
  | [] => 0
  | Elapse ms :: evs' => ms + elapsed evs'
  | _ :: evs' => elapsed evs'
  end.

(** The calls of the exclusive drawer pair, as the events bound to them. *)
Inductive DrawerCall := OpenCart | OpenWishlist | CloseCart | CloseWishlist.

Definition drawerEvent (c : DrawerCall) : Event :=
  match c with
  | OpenCart => CartButtonClick
  | OpenWishlist => WishlistButtonClick
  | CloseCart => CartDrawerClose
  | CloseWishlist => WishlistDrawerClose
  end.

(** The width and the horizontal offset that [handleSearchToggle]
    computes for viewport width [vw] and trigger rectangle [btn]. *)
Definition computedWidthAt (vw : Z) : Z :=
  Z.min 800 (Z.max 320 (Qfloor (inject_Z vw * 0.44))).

Definition naiveLeftAt (vw : Z) (btn : DOMRect.t) : Q :=
  (DOMRect.left btn + DOMRect.width btn / 2 - inject_Z (computedWidthAt vw) / 2)%Q.

Definition leftAt (vw : Z) (btn : DOMRect.t) : Q :=
  Qmax 12 (Qmin (naiveLeftAt vw btn) (inject_Z (vw - computedWidthAt vw - 12))).

(** [clamp x lo hi] in the words of the specification: [x] if it lies
    between the bounds, the bound it passed otherwise. *)
Definition clamp (x lo hi : Z) : Z :=
  if x <? lo then lo else if hi <? x then hi else x.

(** ** Sample pages *)

Definition rect (l t w b : Q) : DOMRect.t :=
  {| DOMRect.left := l; DOMRect.top := t; DOMRect.width := w; DOMRect.bottom := b |}.

(** A 1440 px desktop viewport; the search button is 20 px wide and
    starts at x = 700. *)
Definition desktopLayout : Layout :=
  {| viewportWidth := 1440;
     wrapperEl := Some (rect 0 35 1440 100);
     headerEl := Some (rect 0 35 1440 100);
     searchButtonEl := Some (rect 700 55 20 79) |}.

(** A 1440 px viewport in which the wrapper, the header and the search
    button are in the document but have no size: every rectangle is zero. *)
Definition zeroSizeLayout : Layout :=
  {| viewportWidth := 1440;
     wrapperEl := Some (rect 0 0 0 0);
     headerEl := Some (rect 0 0 0 0);
     searchButtonEl := Some (rect 0 0 0 0) |}.

(** A page whose search button is not in the document. *)
Definition noButtonLayout : Layout :=
  {| viewportWidth := 1440;
     wrapperEl := Some (rect 0 35 1440 100);
     headerEl := Some (rect 0 35 1440 100);
     searchButtonEl := None |}.

(** The bar right after the pointer has entered the "Men" button. *)
Definition menOpen : World :=
  match dispatch (NavButtonMouseEnter men) (mount desktopLayout 0) with
  | Normal (_, w) => w
  | Throw _ => mount desktopLayout 0
  end.

(** The bar showing the "Men" panel after the pointer has left the hover
    zone 100 ms ago: a close is pending. *)
Definition menLeaving : World :=
  match run [WrapperMouseLeave; Elapse 100] menOpen with
  | Normal (_, w) => w
  | Throw _ => menOpen
  end.

(** ** Invariants of the reachable worlds *)

(** The pending close, if any, is the single timer of the queue, it is the
    one [megaMenuCloseTimeoutRef] names, and it is due within 140 ms. *)
Definition pending_ok (w : World) : Prop :=
  match megaMenuCloseTimeoutRef (refs w) with
  | None => timers (window w) = []
  | Some h =>
      exists due,
        timers (window w) = [{| handle := h; deadline := due; callback := CloseMegaMenu |}]
        /\ now (window w) < due <= now (window w) + 140
        /\ h < nextTimerId (window w)
  end.

(** A stored search-bar style is the one [handleSearchToggle] builds:
    absolutely positioned on layer 72, at least 12 px from the left edge,
    not above the wrapper, between 320 and 800 px wide. *)
Definition style_ok (st : CSSProperties.t) : Prop :=
  CSSProperties.position st = Some CSSProperties.absolute
  /\ CSSProperties.zIndex st = Some 72
  /\ exists l t wd,
       CSSProperties.left st = Some l
       /\ CSSProperties.top st = Some t
       /\ CSSProperties.width st = Some wd
       /\ (12 <= l)%Q /\ (0 <= t)%Q /\ 320 <= wd <= 800.

(** ** Teardown *)

(** The cleanup of the second effect, run when the component unmounts. *)
Definition unmount : M unit := clearMegaMenuCloseTimeout.

End NavBar.

(** ** ProductShowcase.tsx: PopularProductsSection (fade-in on first view)

    The effect of [PopularProductsSection]; [useInViewObserver] of
    [BrandStory.tsx] has the same body. *)

Module InView.

Inductive HTMLElement := element.

Record IntersectionObserverEntry := { isIntersecting : bool }.

(** [isVisible] is the [useState] cell; [observing] tells whether the
    observer created by the effect is connected to the section. *)
Record SectionState := { isVisible : bool; observing : bool }.

Definition initialSectionState : SectionState :=
  {| isVisible := false; observing := false |}.

Definition setIsVisible (v : bool) (s : SectionState) : SectionState :=
  {| isVisible := v; observing := observing s |}.

Definition disconnect (s : SectionState) : SectionState :=
  {| isVisible := isVisible s; observing := false |}.

Definition observe (s : SectionState) : SectionState :=
  {| isVisible := isVisible s; observing := true |}.

(** The callback handed to [new IntersectionObserver]. *)
Definition observerCallback (entries : list IntersectionObserverEntry)
    (s : SectionState) : SectionState :=
  fold_left
    (fun s entry => if isIntersecting entry then disconnect (setIsVisible true s) else s)
    entries s.

(** The effect body: [sectionRef] is [sectionRef.current], [hasObserver]
    is [typeof IntersectionObserver !== 'undefined']. *)
Definition effect (sectionRef : option HTMLElement) (hasObserver : bool)
    (s : SectionState) : SectionState :=
  match sectionRef with
  | Some _ => if hasObserver then observe s else setIsVisible true s
  | None => setIsVisible true s
  end.

(** The browser hands a batch of entries to the callback only while the
    observer is connected. *)
Definition deliver (entries : list IntersectionObserverEntry)
    (s : SectionState) : SectionState :=
  if observing s then observerCallback entries s else s.

Definition deliverAll (batches : list (list IntersectionObserverEntry))
    (s : SectionState) : SectionState :=
  fold_left (fun s entries => deliver entries s) batches s.

(** The section after mounting and a series of deliveries. *)
Definition afterBatches (sectionRef : option HTMLElement) (hasObserver : bool)
    (batches : list (list IntersectionObserverEntry)) : SectionState :=
  deliverAll batches (effect sectionRef hasObserver initialSectionState).

End InView.

(** ** ParallaxImage.tsx *)

Module Parallax.

(** The rectangle [getBoundingClientRect] returns for the image; its
    [bottom] is [top + height]. *)
Record DOMRect := { top : Q; height : Q }.

Definition bottom (rect : DOMRect) : Q := top rect + height rect.

(** [onScroll]: [transform] is the vertical offset of
    [el.style.transform], in px; the result is the offset afterwards. *)
Definition onScroll (rect : DOMRect) (innerHeight : Z) (depth : Q) (transform : Q) : Q :=
  let winH := inject_Z innerHeight in
  let visible := Qltb (top rect) winH && Qltb 0 (bottom rect) in
  if negb visible then transform
  else
    let progress := Qmin (Qmax ((winH - top rect) / (winH + height rect)) 0) 1 in
    let translate := (progress - 0.5) * depth * 100 in
    translate.

(** A 600 px image whose top is 200 px below the top of a 900 px window. *)
Definition sampleRect : DOMRect := {| top := 200; height := 600 |}.

End Parallax.

(** * Properties *)

(** ** Comparison helpers *)

Lemma Qltb_lt (x y : Q) : Qltb x y = true <-> x < y.
Proof.
unfold Qltb. rewrite negb_true_iff, <- not_true_iff_false, Qle_bool_iff.
split; [apply Qnot_le_lt | apply Qlt_not_le].
Qed.

Lemma Qltb_ge (x y : Q) : Qltb x y = false <-> y <= x.
Proof.
unfold Qltb. rewrite negb_false_iff. apply Qle_bool_iff.
Qed.

Lemma inject_Z_nonzero (z : Z) : (z <> 0)%Z -> ~ inject_Z z == 0.
Proof.
intros Hz Heq. apply Hz. unfold Qeq in Heq. simpl in Heq. lia.
Qed.

(** ** The carousel *)

Section CarouselProperties.

Import Carousel.

Lemma progressAt_scrollable (node : Track) (o : Q) :
  (0 < maxScrollOf node)%Z ->
  progressAt node o = o / inject_Z (maxScrollOf node) * 100.
Proof.
  intros Hm. unfold progressAt, updateScrollState, maxScrollOf in *. simpl.
  destruct (Z.leb_spec (scrollWidth node - clientWidth node) 0); [lia | reflexivity].
Qed.

Lemma Track_ok_inv (node : Track) :
  Track_ok node = true ->
  (0 <= clientWidth node)%Z /\ (0 <= maxScrollOf node)%Z
  /\ 0 <= scrollLeft node /\ scrollLeft node <= inject_Z (maxScrollOf node)
  /\ match firstElementChild node with
     | Some el => (0 <= offsetWidth el)%Z
     | None => True
     end.
Proof.
  unfold Track_ok, maxScrollOf. rewrite !andb_true_iff, !Qle_bool_iff, !Z.leb_le.
  intros [[[[Hc Hs] Hel] H0] Hmax]. repeat split; try assumption; try lia.
  destruct (firstElementChild node); [apply Z.leb_le; assumption | exact I].
Qed.

(** C3. When the track can scroll ([maxScroll = scrollWidth - clientWidth
    > 0]), the progress that [updateScrollState] stores is non-decreasing
    in the offset over [0, maxScroll], it is 0 at offset 0 and 100 at
    offset [maxScroll]. *)
Theorem progress_monotone (node : Track) (o1 o2 : Q) :
  (0 < maxScrollOf node)%Z ->
  0 <= o1 -> o1 <= o2 -> o2 <= inject_Z (maxScrollOf node) ->
  progressAt node o1 <= progressAt node o2
  /\ progressAt node 0 == 0
  /\ progressAt node (inject_Z (maxScrollOf node)) == 100.
Proof.
  intros Hm _ H12 _. rewrite !progressAt_scrollable by assumption.
  assert (Hpos : 0 < inject_Z (maxScrollOf node)).
  { rewrite <- (Zlt_Qlt 0). exact Hm. }
  assert (Hnz : ~ inject_Z (maxScrollOf node) == 0).
  { apply inject_Z_nonzero. lia. }
  split; [| split].
  - apply Qmult_le_compat_r; [| discriminate].
    apply Qmult_le_compat_r; [exact H12 |].
    apply Qlt_le_weak, Qinv_lt_0_compat, Hpos.
  - field. exact Hnz.
  - field. exact Hnz.
Qed.

Lemma progress_monotone_witness :
  progressAt sampleTrack 150 <= progressAt sampleTrack 300
  /\ progressAt sampleTrack 0 == 0
  /\ progressAt sampleTrack (inject_Z (maxScrollOf sampleTrack)) == 100.
Proof.
  apply (progress_monotone sampleTrack 150 300);
    [reflexivity | discriminate | discriminate | discriminate].
Defined.

(** C8. When the content fits in the viewport ([scrollWidth <=
    clientWidth]) and the offset is 0, [updateScrollState] stores
    [canScrollPrev = false], [canScrollNext = false] and progress 100,
    whatever the row state was before. *)
Theorem content_fits (node : Track) (s : RowState) :
  (scrollWidth node <= clientWidth node)%Z ->
  scrollLeft node == 0 ->
  let s' := updateScrollState (Some node) s in
  canScrollPrev s' = false /\ canScrollNext s' = false /\ scrollProgress s' = 100.
Proof.
  intros Hfit H0 s'. subst s'. unfold updateScrollState.
  destruct (Z.leb_spec (scrollWidth node - clientWidth node) 0) as [_ | Hlt];
    [| lia].
  simpl. repeat split.
  - apply Qltb_ge. rewrite H0. apply Qle_refl.
  - apply Qltb_ge. rewrite H0.
    setoid_replace (inject_Z (scrollWidth node - clientWidth node) - 1)
      with (inject_Z (scrollWidth node - clientWidth node - 1)).
    + rewrite <- (Zle_Qle _ 0). lia.
    + unfold Zminus at 2. rewrite inject_Z_plus. reflexivity.
Qed.

Lemma content_fits_witness :
  let s' := updateScrollState (Some emptyTrack) initialRowState in
  canScrollPrev s' = false /\ canScrollNext s' = false /\ scrollProgress s' = 100.
Proof.
  apply (content_fits emptyTrack initialRowState); [discriminate | reflexivity].
Defined.

Lemma stepOf_nonneg (node : Track) : Track_ok node = true -> 0 <= stepOf node.
Proof.
  intros Hok. destruct (Track_ok_inv node Hok) as (Hc & _ & _ & _ & Hel).
  unfold stepOf. destruct (firstElementChild node) as [el |].
  - rewrite (Zle_Qle 0) in Hel.
    apply (Qplus_le_compat 0 _ 0 20); [exact Hel | discriminate].
  - apply Qmult_le_0_compat; [discriminate |]. rewrite <- (Zle_Qle 0). exact Hc.
Qed.

(** C5, as the code has it.  A click on the right arrow asks the scroll
    host to move by the width of the first card plus 20 px when the track
    has a first child, whatever that width is, and by 80% of the viewport
    width when it has none; the host brings the offset to the old offset
    plus that step, capped at [maxScroll]. *)
Theorem arrow_click_step (node : Track) :
  Track_ok node = true ->
  exists opts,
    handleArrowClick (Some node) Next = Some opts
    /\ left opts == stepOf node
    /\ match firstElementChild node with
       | Some el => left opts == inject_Z (offsetWidth el) + 20
       | None => left opts == 0.8 * inject_Z (clientWidth node)
       end
    /\ scrollLeft (scrollBy node opts)
       == Qmin (scrollLeft node + stepOf node) (inject_Z (maxScrollOf node))
    /\ scrollLeft (scrollBy node opts) <= inject_Z (maxScrollOf node).
Proof.
  intros Hok. pose proof (stepOf_nonneg node Hok) as Hstep.
  destruct (Track_ok_inv node Hok) as (Hc & Hm & H0 & Hmax & Hel).
  destruct (handleArrowClick (Some node) Next) as [opts |] eqn:Hclick;
    [| discriminate Hclick].
  assert (Hleft : left opts == stepOf node).
  { cbn in Hclick. injection Hclick as <-. unfold stepOf. cbn [left].
    destruct (firstElementChild node); cbn [directionValue]; ring. }
  assert (Hrest : scrollLeft (scrollBy node opts)
                  == Qmin (scrollLeft node + stepOf node)
                          (inject_Z (maxScrollOf node))).
  { unfold scrollBy. cbn [scrollLeft withScrollLeft]. rewrite Hleft.
    rewrite Z.max_r by exact Hm.
    apply Q.max_r. apply Q.min_glb.
    - apply (Qplus_le_compat 0 _ 0 _); assumption.
    - rewrite <- (Zle_Qle 0). exact Hm. }
  exists opts. split; [reflexivity |]. split; [exact Hleft |].
  split; [unfold stepOf in Hleft; destruct (firstElementChild node); exact Hleft |].
  split; [exact Hrest |].
  rewrite Hrest. apply Q.le_min_r.
Qed.

Lemma arrow_click_step_witness :
  exists opts,
    handleArrowClick (Some sampleTrack) Next = Some opts
    /\ left opts == stepOf sampleTrack
    /\ left opts == inject_Z 280 + 20
    /\ scrollLeft (scrollBy sampleTrack opts)
       == Qmin (scrollLeft sampleTrack + stepOf sampleTrack)
               (inject_Z (maxScrollOf sampleTrack))
    /\ scrollLeft (scrollBy sampleTrack opts) <= inject_Z (maxScrollOf sampleTrack).
Proof.
  apply (arrow_click_step sampleTrack). reflexivity.
Defined.

(** C5 as stated fails for a first card that cannot be measured because it
    has no width: in a 400 px viewport the step is 0 + 20 = 20 px, not the
    fallback of 80% of the viewport, 320 px. *)
Lemma empty_card_steps_20 :
  exists opts,
    handleArrowClick (Some emptyCardTrack) Next = Some opts
    /\ left opts == 20
    /\ 0.8 * inject_Z (clientWidth emptyCardTrack) == 320
    /\ ~ left opts == 0.8 * inject_Z (clientWidth emptyCardTrack).
Proof.
  eexists. split; [reflexivity |].
  split; [reflexivity |]. split; [reflexivity |]. discriminate.
Qed.

(** *** Further properties of the carousel *)

Lemma Track_ok_intro (node : Track) :
  (0 <= clientWidth node)%Z ->
  (0 <= maxScrollOf node)%Z ->
  0 <= scrollLeft node ->
  scrollLeft node <= inject_Z (maxScrollOf node) ->
  match firstElementChild node with
  | Some el => (0 <= offsetWidth el)%Z
  | None => True
  end ->
  Track_ok node = true.
Proof.
  unfold Track_ok, maxScrollOf. intros Hc Hm H0 Hmax Hel.
  rewrite !andb_true_iff, !Qle_bool_iff, !Z.leb_le.
  repeat split; try assumption; try lia.
  destruct (firstElementChild node); [apply Z.leb_le; assumption | reflexivity].
Qed.

Lemma click_scrollLeft (d : Direction) (node : Track) :
  scrollLeft (click d node)
  == Qmax 0 (Qmin (scrollLeft node + directionValue d * stepOf node)
                  (inject_Z (Z.max 0 (maxScrollOf node)))).
Proof.
  unfold click, handleArrowClick, scrollBy, stepOf.
  cbn [scrollLeft withScrollLeft left].
  destruct (firstElementChild node);
    apply Q.max_compat; try reflexivity;
    apply Q.min_compat; try reflexivity; ring.
Qed.

Lemma click_frame (d : Direction) (node : Track) :
  scrollWidth (click d node) = scrollWidth node
  /\ clientWidth (click d node) = clientWidth node
  /\ firstElementChild (click d node) = firstElementChild node.
Proof. repeat split. Qed.

Lemma click_keeps_ok (d : Direction) (node : Track) :
  Track_ok node = true -> Track_ok (click d node) = true.
Proof.
  intros Hok. destruct (Track_ok_inv node Hok) as (Hc & Hm & H0 & Hmax & Hel).
  apply Track_ok_intro; try assumption.
  - rewrite click_scrollLeft. apply Q.le_max_l.
  - rewrite click_scrollLeft.
    change (maxScrollOf (click d node)) with (maxScrollOf node).
    rewrite Z.max_r by exact Hm.
    apply Q.max_lub; [rewrite <- (Zle_Qle 0); exact Hm | apply Q.le_min_r].
Qed.

(** X1. For a track in a state the DOM allows, the progress that
    [updateScrollState] stores lies between 0 and 100. *)
Theorem progress_in_range (node : Track) (s : RowState) :
  Track_ok node = true ->
  0 <= scrollProgress (updateScrollState (Some node) s) <= 100.
Proof.
  intros Hok. destruct (Track_ok_inv node Hok) as (_ & Hm & H0 & Hmax & _).
  unfold updateScrollState, maxScrollOf in *.
  destruct (Z.leb_spec (scrollWidth node - clientWidth node) 0) as [| Hpos];
    cbn [scrollProgress setScrollProgress]; [split; discriminate |].
  assert (HposQ : 0 < inject_Z (scrollWidth node - clientWidth node))
    by (rewrite <- (Zlt_Qlt 0); exact Hpos).
  split.
  - apply Qmult_le_0_compat; [| discriminate].
    apply Qle_shift_div_l; [exact HposQ |]. rewrite Qmult_0_l. exact H0.
  - setoid_replace 100 with (1 * 100) at 2 by reflexivity.
    apply Qmult_le_compat_r; [| discriminate].
    apply Qle_shift_div_r; [exact HposQ |]. rewrite Qmult_1_l. exact Hmax.
Qed.

Lemma progress_in_range_witness :
  0 <= scrollProgress (updateScrollState (Some sampleTrack) initialRowState) <= 100.
Proof. apply (progress_in_range sampleTrack initialRowState). reflexivity. Defined.

(** X2. After [updateScrollState] on a track in a state the DOM allows,
    both arrows are disabled exactly when the track is at offset 0 and the
    content overflows the viewport by at most 1 px. *)
Theorem arrows_both_disabled_iff (node : Track) (s : RowState) :
  Track_ok node = true ->
  let s' := updateScrollState (Some node) s in
  canScrollPrev s' || canScrollNext s' = false
  <-> scrollLeft node == 0 /\ (maxScrollOf node <= 1)%Z.
Proof.
  intros Hok s'. destruct (Track_ok_inv node Hok) as (_ & Hm & H0 & Hmax & _).
  assert (Hprev : canScrollPrev s' = Qltb 0 (scrollLeft node)).
  { unfold s', updateScrollState.
    destruct (scrollWidth node - clientWidth node <=? 0)%Z; reflexivity. }
  assert (Hnext : canScrollNext s'
                  = Qltb (scrollLeft node) (inject_Z (maxScrollOf node) - 1)).
  { unfold s', updateScrollState, maxScrollOf.
    destruct (scrollWidth node - clientWidth node <=? 0)%Z; reflexivity. }
  rewrite Hprev, Hnext, orb_false_iff, !Qltb_ge.
  assert (Hone : inject_Z (maxScrollOf node) - 1 == inject_Z (maxScrollOf node - 1)).
  { unfold Zminus. rewrite inject_Z_plus. reflexivity. }
  split.
  - intros [Hle Hge]. assert (Hz : scrollLeft node == 0) by (apply Qle_antisym; assumption).
    split; [exact Hz |].
    rewrite Hz, Hone, <- (Zle_Qle _ 0) in Hge. lia.
  - intros [Hz Hsmall]. rewrite Hz, Hone, <- (Zle_Qle _ 0).
    split; [apply Qle_refl | lia].
Qed.

Lemma arrows_both_disabled_iff_witness :
  let s' := updateScrollState (Some sampleTrack) initialRowState in
  canScrollPrev s' || canScrollNext s' = false
  <-> scrollLeft sampleTrack == 0 /\ (maxScrollOf sampleTrack <= 1)%Z.
Proof. apply (arrows_both_disabled_iff sampleTrack initialRowState). reflexivity. Defined.

Lemma click_next_scrollLeft (node : Track) :
  Track_ok node = true ->
  scrollLeft (click Next node)
  == Qmin (scrollLeft node + stepOf node) (inject_Z (maxScrollOf node)).
Proof.
  intros Hok. pose proof (stepOf_nonneg node Hok) as Hstep.
  destruct (Track_ok_inv node Hok) as (_ & Hm & H0 & Hmax & _).
  rewrite click_scrollLeft, Z.max_r by exact Hm. cbn [directionValue].
  rewrite Qmult_1_l. apply Q.max_r. apply Q.min_glb.
  - apply (Qplus_le_compat 0 _ 0 _); assumption.
  - rewrite <- (Zle_Qle 0). exact Hm.
Qed.

Lemma updateScrollState_overwrites (node : Track) (s s' : RowState) :
  updateScrollState (Some node) s = updateScrollState (Some node) s'.
Proof.
  unfold updateScrollState.
  destruct (scrollWidth node - clientWidth node <=? 0)%Z; reflexivity.
Qed.

Lemma inSync_flags (r : Row) :
  inSync r ->
  canScrollPrev (rowState r) = Qltb 0 (scrollLeft (track r))
  /\ canScrollNext (rowState r)
     = Qltb (scrollLeft (track r)) (inject_Z (maxScrollOf (track r)) - 1)
  /\ scrollProgress (rowState r)
     = if (maxScrollOf (track r) <=? 0)%Z then 100
       else scrollLeft (track r) / inject_Z (maxScrollOf (track r)) * 100.
Proof.
  unfold inSync. intros ->. unfold updateScrollState, maxScrollOf.
  destruct (scrollWidth (track r) - clientWidth (track r) <=? 0)%Z;
    repeat split.
Qed.

(** What one press on the right arrow does to a row in sync: the track
    stays in a state the DOM allows and the row in sync; either the arrow
    was disabled and the row is as it was, or the offset is now the old
    offset plus one step, capped at [maxScroll]. *)
Lemma pressArrow_next_cases (r : Row) :
  Track_ok (track r) = true ->
  inSync r ->
  let r1 := pressArrow Next r in
  Track_ok (track r1) = true
  /\ inSync r1
  /\ maxScrollOf (track r1) = maxScrollOf (track r)
  /\ stepOf (track r1) = stepOf (track r)
  /\ ((canScrollNext (rowState r) = false /\ r1 = r)
      \/ (canScrollNext (rowState r) = true
          /\ scrollLeft (track r1)
             == Qmin (scrollLeft (track r) + stepOf (track r))
                     (inject_Z (maxScrollOf (track r))))).
Proof.
  intros Hok Hsync r1. subst r1. unfold pressArrow. cbn [arrowEnabled].
  destruct (canScrollNext (rowState r)) eqn:Hnext.
  - pose proof (click_next_scrollLeft (track r) Hok) as Hsl.
    destruct (Qeq_bool (scrollLeft (click Next (track r))) (scrollLeft (track r)))
      eqn:Hsame.
    + apply Qeq_bool_iff in Hsame.
      repeat split; try assumption. right. split; [reflexivity |].
      transitivity (scrollLeft (click Next (track r)));
        [symmetry; exact Hsame | exact Hsl].
    + cbn [track rowState].
      split; [apply click_keeps_ok, Hok |].
      split; [unfold inSync; cbn [track rowState]; apply updateScrollState_overwrites |].
      split; [reflexivity |]. split; [reflexivity |].
      right. split; [reflexivity | exact Hsl].
  - repeat split; try assumption. left. split; reflexivity.
Qed.

(** X3. In a row in sync whose track is in a state the DOM allows and has
    a first card, a press on the right arrow while it is enabled moves the
    offset strictly to the right, keeps the track in a state the DOM
    allows and the row in sync, enables the left arrow, and does not lower
    the progress. *)
Theorem next_press_enables_prev (r : Row) (el : HTMLElement) :
  Track_ok (track r) = true ->
  inSync r ->
  firstElementChild (track r) = Some el ->
  canScrollNext (rowState r) = true ->
  let r' := pressArrow Next r in
  Track_ok (track r') = true
  /\ inSync r'
  /\ scrollLeft (track r) < scrollLeft (track r')
  /\ canScrollPrev (rowState r') = true
  /\ scrollProgress (rowState r) <= scrollProgress (rowState r').
Proof.
  intros Hok Hsync Hel Hnext r'.
  destruct (Track_ok_inv (track r) Hok) as (_ & Hm & H0 & Hmax & Hw).
  destruct (inSync_flags r Hsync) as (_ & Hn & Hp).
  rewrite Hn in Hnext. apply Qltb_lt in Hnext.
  assert (Hstep : 20 <= stepOf (track r)).
  { unfold stepOf. rewrite Hel in *. rewrite (Zle_Qle 0) in Hw.
    change (inject_Z 0) with 0 in Hw. lra. }
  destruct (pressArrow_next_cases r Hok Hsync)
    as (Hok' & Hsync' & Hmeq & _ & [[Hoff _] | [_ Hsl]]).
  { destruct (inSync_flags r Hsync) as (_ & Hn' & _).
    rewrite Hn' in Hoff. apply Qltb_ge in Hoff. lra. }
  fold r' in Hok', Hsync', Hmeq, Hsl.
  assert (Hgt : scrollLeft (track r) < scrollLeft (track r')).
  { rewrite Hsl. apply Q.min_glb_lt; lra. }
  destruct (inSync_flags r' Hsync') as (Hprev' & _ & Hp').
  split; [exact Hok' |]. split; [exact Hsync' |]. split; [exact Hgt |].
  split; [rewrite Hprev'; apply Qltb_lt; lra |].
  rewrite Hp, Hp', Hmeq.
  assert (HposQ : 0 < inject_Z (maxScrollOf (track r))) by lra.
  destruct (Z.leb_spec (maxScrollOf (track r)) 0) as [Hneg | _].
  { rewrite (Zle_Qle _ 0) in Hneg. change (inject_Z 0) with 0 in Hneg. lra. }
  apply Qmult_le_compat_r; [| discriminate].
  apply Qmult_le_compat_r; [apply Qlt_le_weak, Hgt |].
  apply Qlt_le_weak, Qinv_lt_0_compat, HposQ.
Qed.

Lemma next_press_enables_prev_witness :
  let r' := pressArrow Next (mountRow sampleTrack) in
  Track_ok (track r') = true
  /\ inSync r'
  /\ scrollLeft (track (mountRow sampleTrack)) < scrollLeft (track r')
  /\ canScrollPrev (rowState r') = true
  /\ scrollProgress (rowState (mountRow sampleTrack)) <= scrollProgress (rowState r').
Proof.
  apply (next_press_enables_prev (mountRow sampleTrack) {| offsetWidth := 280 |});
    reflexivity.
Defined.

(** X4. The left arrow asks for exactly the opposite of what the right
    arrow asks for, and when the right-arrow step does not hit the end of
    the track, a right click followed by a left click brings the offset
    back to where it was. *)
Theorem prev_undoes_next (node : Track) :
  Track_ok node = true ->
  scrollLeft node + stepOf node <= inject_Z (maxScrollOf node) ->
  exists next prev,
    handleArrowClick (Some node) Next = Some next
    /\ handleArrowClick (Some (click Next node)) Prev = Some prev
    /\ left prev == - left next
    /\ scrollLeft (click Prev (click Next node)) == scrollLeft node.
Proof.
  intros Hok Hroom. pose proof (stepOf_nonneg node Hok) as Hstep.
  destruct (Track_ok_inv node Hok) as (_ & Hm & H0 & Hmax & _).
  eexists. eexists. split; [reflexivity |]. split; [reflexivity |].
  split.
  - cbn [left click handleArrowClick scrollBy withScrollLeft firstElementChild
              clientWidth directionValue].
    ring.
  - rewrite click_scrollLeft.
    change (stepOf (click Next node)) with (stepOf node).
    change (maxScrollOf (click Next node)) with (maxScrollOf node).
    rewrite (click_next_scrollLeft node Hok).
    rewrite Z.max_r by exact Hm. cbn [directionValue].
    rewrite (Q.min_l _ _ Hroom).
    setoid_replace (scrollLeft node + stepOf node + -1 * stepOf node)
      with (scrollLeft node) by ring.
    rewrite (Q.min_l _ _ Hmax). apply Q.max_r. exact H0.
Qed.

Lemma prev_undoes_next_witness :
  exists next prev,
    handleArrowClick (Some sampleTrack) Next = Some next
    /\ handleArrowClick (Some (click Next sampleTrack)) Prev = Some prev
    /\ left prev == - left next
    /\ scrollLeft (click Prev (click Next sampleTrack)) == scrollLeft sampleTrack.
Proof. apply (prev_undoes_next sampleTrack); [reflexivity | discriminate]. Defined.

Lemma disabled_next_stays (n : nat) (r : Row) :
  canScrollNext (rowState r) = false -> pressNextTimes n r = r.
Proof.
  intros Hoff. induction n as [| n IH]; [reflexivity |].
  cbn [pressNextTimes]. unfold pressArrow. cbn [arrowEnabled].
  rewrite Hoff. exact IH.
Qed.

(** X5. Presses on the right arrow stop within 1 px of the end: in a row
    in sync whose track is in a state the DOM allows, once [n] steps cover
    the distance from the current offset to [maxScroll], [n] presses leave
    the right arrow disabled and the offset between [maxScroll - 1] and
    [maxScroll]; the row is still in sync and the track in a state the DOM
    allows. *)
Theorem next_presses_stop_at_end (n : nat) (r : Row) :
  Track_ok (track r) = true ->
  inSync r ->
  inject_Z (maxScrollOf (track r)) - scrollLeft (track r)
  <= inject_Z (Z.of_nat n) * stepOf (track r) ->
  let r' := pressNextTimes n r in
  canScrollNext (rowState r') = false
  /\ inject_Z (maxScrollOf (track r)) - 1 <= scrollLeft (track r')
     <= inject_Z (maxScrollOf (track r))
  /\ Track_ok (track r') = true
  /\ inSync r'.
Proof.
  revert r. induction n as [| n IH]; intros r Hok Hsync Hfar r'.
  - subst r'. cbn [pressNextTimes].
    destruct (Track_ok_inv (track r) Hok) as (_ & _ & _ & Hmax & _).
    destruct (inSync_flags r Hsync) as (_ & Hn & _).
    cbn [Z.of_nat] in Hfar. rewrite Qmult_0_l in Hfar.
    split; [rewrite Hn; apply Qltb_ge; lra |].
    split; [split; lra |]. split; assumption.
  - subst r'. cbn [pressNextTimes].
    pose proof (stepOf_nonneg (track r) Hok) as Hstep.
    destruct (Track_ok_inv (track r) Hok) as (_ & _ & _ & Hmax & _).
    destruct (pressArrow_next_cases r Hok Hsync)
      as (Hok1 & Hsync1 & Hmeq & Hseq & [[Hoff Hsame] | [_ Hsl]]).
    + rewrite Hsame, (disabled_next_stays n r Hoff).
      destruct (inSync_flags r Hsync) as (_ & Hn & _).
      rewrite Hn in Hoff. apply Qltb_ge in Hoff.
      split; [rewrite Hn; apply Qltb_ge; exact Hoff |].
      split; [split; lra |]. split; assumption.
    + rewrite <- Hmeq.
      apply (IH (pressArrow Next r) Hok1 Hsync1).
      rewrite Hmeq, Hseq, Hsl.
      rewrite Nat2Z.inj_succ in Hfar. unfold Z.succ in Hfar.
      rewrite inject_Z_plus in Hfar. change (inject_Z 1) with 1 in Hfar.
      assert (Hn : 0 <= inject_Z (Z.of_nat n) * stepOf (track r)).
      { apply Qmult_le_0_compat; [rewrite <- (Zle_Qle 0); lia | exact Hstep]. }
      set (k := inject_Z (Z.of_nat n) * stepOf (track r)) in *.
      setoid_replace ((inject_Z (Z.of_nat n) + 1) * stepOf (track r))
        with (k + stepOf (track r)) in Hfar by (unfold k; ring).
      destruct (Q.min_spec (scrollLeft (track r) + stepOf (track r))
                  (inject_Z (maxScrollOf (track r))))
        as [[_ Hmin] | [_ Hmin]]; rewrite Hmin; lra.
Qed.

Lemma next_presses_stop_at_end_witness :
  let r' := pressNextTimes 3 (mountRow unevenTrack) in
  canScrollNext (rowState r') = false
  /\ inject_Z (maxScrollOf (track (mountRow unevenTrack))) - 1 <= scrollLeft (track r')
     <= inject_Z (maxScrollOf (track (mountRow unevenTrack)))
  /\ Track_ok (track r') = true
  /\ inSync r'.
Proof.
  apply (next_presses_stop_at_end 3 (mountRow unevenTrack));
    [reflexivity | reflexivity | discriminate].
Defined.

End CarouselProperties.

(** ** The navigation bar *)

Section NavBarProperties.

Import NavBar.
Local Open Scope Z_scope.

(** Unfold the handlers and the monad, then project the records. *)
Ltac nav_step :=
  cbv beta iota delta
    [dispatch bind ret get throw modifyState modifyRefs modifyWindow
     setActiveDesktopMenu setIsMobileMenuOpen setIsLocationDrawerOpen
     setIsCartDrawerOpen setIsWishlistDrawerOpen setIsSearchBarOpen
     setIsHovered setIsAtTop setSearchBarStyle setMegaMenuCloseTimeoutRef
     setTimeout clearTimeout getBoundingClientRect truthy
     clearMegaMenuCloseTimeout runCallback scheduleMegaMenuClose
     handleDesktopItemHover openLocationDrawer closeLocationDrawer
     openMobileMenu closeMobileMenu openCartDrawer closeCartDrawer
     openWishlistDrawer closeWishlistDrawer handleSearchToggle
     navButtonOnMouseEnter hamburgerOnClick onScroll
     takeTimer elapse windowScroll relayout
     drawerEvent idle armed sameHover hasPanel];
  cbn [state refs window
       activeDesktopMenu isMobileMenuOpen isLocationDrawerOpen isCartDrawerOpen
       isWishlistDrawerOpen isSearchBarOpen isHovered isAtTop searchBarStyle
       wrapperRef headerRef searchButtonRef megaMenuCloseTimeoutRef
       innerWidth scrollY now timers nextTimerId fired
       handle deadline callback negb orb andb
       navItem NAV_ITEMS find PrimaryNavItemId_eqb id hasMegaMenu
       List.length List.filter List.app runDueTimers nextDue].

Ltac open_world w :=
  destruct w as [?s [?wr ?hr ?br ?ref] [?iw ?sy ?nw ?tms ?nx ?frd]].

Lemma run_cons (ev : Event) (evs : list Event) (w : World) :
  run (ev :: evs) w =
  match dispatch ev w with
  | Normal (_, w') => run evs w'
  | Throw e => Throw e
  end.
Proof. reflexivity. Qed.

Lemma run_app (evs1 evs2 : list Event) (w w1 : World) :
  run evs1 w = Normal (tt, w1) ->
  run (evs1 ++ evs2) w = run evs2 w1.
Proof.
  revert w. induction evs1 as [| ev evs1 IH]; intros w H.
  - cbn in H. injection H as <-. reflexivity.
  - rewrite <- app_comm_cons, run_cons. rewrite run_cons in H.
    destruct (dispatch ev w) as [[[] w'] | e]; [apply IH, H | discriminate].
Qed.

(** *** The pending close *)

Lemma leave_arms (w : World) :
  timers_ok w ->
  exists w',
    scheduleMegaMenuClose w = Normal (tt, w')
    /\ armed (nextTimerId (window w)) (now (window w) + 140) w'
    /\ state w' = state w
    /\ fired (window w') = fired (window w)
    /\ now (window w') = now (window w).
Proof.
  open_world w. intros [[Href Htm] | (h & due & Href & Htm)];
    cbn in Href, Htm; subst; nav_step;
    rewrite ?Z.eqb_refl; nav_step; eexists; repeat split.
Qed.

Lemma enter_disarms (w : World) :
  timers_ok w ->
  exists w',
    clearMegaMenuCloseTimeout w = Normal (tt, w')
    /\ idle w'
    /\ state w' = state w
    /\ fired (window w') = fired (window w)
    /\ now (window w') = now (window w).
Proof.
  open_world w. intros [[Href Htm] | (h & due & Href & Htm)];
    cbn in Href, Htm; subst; nav_step;
    rewrite ?Z.eqb_refl; nav_step; eexists; repeat split.
Qed.

Lemma elapse_idle (ms : N) (w : World) :
  idle w ->
  exists w',
    elapse ms w = Normal (tt, w')
    /\ idle w'
    /\ state w' = state w
    /\ fired (window w') = fired (window w)
    /\ now (window w') = now (window w) + Z.of_N ms.
Proof.
  open_world w. intros [Href Htm]. cbn in Href, Htm. subst.
  nav_step. eexists; repeat split.
Qed.

Lemma elapse_armed (ms : N) (h : TimerId) (due : Z) (w : World) :
  armed h due w ->
  exists w',
    elapse ms w = Normal (tt, w')
    /\ now (window w') = now (window w) + Z.of_N ms
    /\ if due <=? now (window w) + Z.of_N ms
       then idle w'
            /\ activeDesktopMenu (state w') = None
            /\ fired (window w') = h :: fired (window w)
       else armed h due w'
            /\ state w' = state w
            /\ fired (window w') = fired (window w).
Proof.
  open_world w. intros [Href Htm]. cbn in Href, Htm. subst.
  nav_step. destruct (due <=? nw + Z.of_N ms) eqn:Hdue; nav_step;
    rewrite ?Hdue; nav_step; rewrite ?Z.eqb_refl; nav_step;
    eexists; repeat split.
Qed.

(** Case analysis on the tests a handler makes, one at a time. *)
Ltac nav_cases :=
  repeat (nav_step; rewrite ?Z.eqb_refl; nav_step;
          match goal with
          | |- context [match ?x with Some _ => _ | None => _ end] =>
              is_var x; destruct x
          | |- context [if ?b then _ else _] => destruct b eqn:?
          end);
  nav_step; rewrite ?Z.eqb_refl; nav_step.

Lemma outside_event_frame (ev : Event) (w : World) :
  pointerOutside ev = true ->
  match ev with Elapse _ => False | _ => True end ->
  exists w', dispatch ev w = Normal (tt, w') /\ sameHover w w'.
Proof.
  open_world w.
  destruct ev; try discriminate; intros _ Hev; try contradiction;
    nav_step; eexists; repeat split.
Qed.

Lemma outside_event_elapsed (ev : Event) (evs : list Event) :
  match ev with Elapse _ => False | _ => True end ->
  elapsed (ev :: evs) = elapsed evs.
Proof. destruct ev; try reflexivity; contradiction. Qed.

(** With no close pending, events outside the hover zone leave the menu
    as it is and fire nothing. *)
Lemma run_outside_idle (evs : list Event) (w : World) :
  forallb pointerOutside evs = true ->
  idle w ->
  exists w',
    run evs w = Normal (tt, w')
    /\ idle w'
    /\ activeDesktopMenu (state w') = activeDesktopMenu (state w)
    /\ fired (window w') = fired (window w)
    /\ now (window w') = now (window w) + Z.of_N (elapsed evs).
Proof.
  revert w. induction evs as [| ev evs IH]; intros w Hout Hidle.
  - exists w. cbn. repeat split; try apply Hidle. lia.
  - cbn [forallb] in Hout. apply andb_true_iff in Hout as [Hev Hout].
    rewrite run_cons.
    assert (Hstep : exists w1,
               dispatch ev w = Normal (tt, w1) /\ idle w1
               /\ activeDesktopMenu (state w1) = activeDesktopMenu (state w)
               /\ fired (window w1) = fired (window w)
               /\ now (window w1) + Z.of_N (elapsed evs)
                  = now (window w) + Z.of_N (elapsed (ev :: evs))).
    { destruct ev as [| | | | | | | | | | | | | | y | l | ms];
        try discriminate Hev.
      7: { destruct (elapse_idle ms w Hidle) as (w1 & Hrun & Hi & Hs & Hf & Hn).
           exists w1. rewrite Hs. repeat split; try assumption; try apply Hi.
           cbn [elapsed]. lia. }
      all: match goal with
           | |- context [dispatch ?e ?w0] =>
               destruct (outside_event_frame e w0 eq_refl I)
                 as (w1 & Hrun & Ha & Hr & Ht & Hf & Hn)
           end;
        exists w1; destruct Hidle as [Hi1 Hi2];
        repeat split; try congruence;
        cbn [elapsed]; lia. }
    destruct Hstep as (w1 & Hrun & Hi & Ha & Hf & Hn). rewrite Hrun.
    destruct (IH w1 Hout Hi) as (w' & Hrun' & Hi' & Ha' & Hf' & Hn').
    exists w'. repeat split; try apply Hi'; congruence.
Qed.

(** With a close pending and due at [due], events outside the hover zone
    keep the menu open until the clock reaches [due]; at that moment the
    callback runs, once, and closes the menu. *)
Lemma run_outside_armed (evs : list Event) (h : TimerId) (due : Z) (w : World) :
  forallb pointerOutside evs = true ->
  armed h due w ->
  now (window w) < due ->
  exists w',
    run evs w = Normal (tt, w')
    /\ now (window w') = now (window w) + Z.of_N (elapsed evs)
    /\ if due <=? now (window w) + Z.of_N (elapsed evs)
       then idle w'
            /\ activeDesktopMenu (state w') = None
            /\ fired (window w') = h :: fired (window w)
       else armed h due w'
            /\ activeDesktopMenu (state w') = activeDesktopMenu (state w)
            /\ fired (window w') = fired (window w).
Proof.
  revert w. induction evs as [| ev evs IH]; intros w Hout Harm Hlt.
  - exists w. cbn [run elapsed Z.of_N]. rewrite Z.add_0_r.
    destruct (Z.leb_spec due (now (window w))); [lia |].
    cbn. repeat split; apply Harm.
  - cbn [forallb] in Hout. apply andb_true_iff in Hout as [Hev Hout].
    rewrite run_cons.
    destruct ev as [| | | | | | | | | | | | | | y | l | ms];
      try discriminate Hev.
    7: { destruct (elapse_armed ms h due w Harm) as (w1 & Hrun & Hn & Hcase).
         change (dispatch (Elapse ms) w) with (elapse ms w).
         rewrite Hrun. cbn [elapsed]. rewrite N2Z.inj_add, Z.add_assoc.
         destruct (Z.leb_spec due (now (window w) + Z.of_N ms)) as [Hdue | Hnot].
         - destruct Hcase as (Hi & Ha & Hf).
           destruct (run_outside_idle evs w1 Hout Hi)
             as (w' & Hrun' & Hi' & Ha' & Hf' & Hn').
           exists w'. split; [exact Hrun' |]. split; [lia |].
           destruct (Z.leb_spec due (now (window w) + Z.of_N ms + Z.of_N (elapsed evs)));
             [| lia].
           repeat split; try apply Hi'; congruence.
         - destruct Hcase as (Ha1 & Hs & Hf).
           destruct (IH w1 Hout Ha1 ltac:(lia)) as (w' & Hrun' & Hn' & Hcase').
           exists w'. split; [exact Hrun' |]. split; [lia |].
           rewrite Hn in Hcase'. rewrite Hs, Hf in Hcase'. exact Hcase'. }
    all: match goal with
         | |- context [dispatch ?e ?w0] =>
             destruct (outside_event_frame e w0 eq_refl I)
               as (w1 & Hrun & Ha & Hr & Ht & Hf & Hn)
         end;
      rewrite Hrun; cbn [elapsed];
      assert (Harm1 : armed h due w1)
        by (destruct Harm as [H1 H2]; split; congruence);
      destruct (IH w1 Hout Harm1 ltac:(lia)) as (w' & Hrun' & Hn' & Hcase');
      exists w'; split; [exact Hrun' |]; split; [lia |];
      rewrite Hn, Ha, Hf in Hcase'; exact Hcase'.
Qed.

(** Every handler returns normally and keeps the timer queue in step
    with [megaMenuCloseTimeoutRef]: at most one close is ever pending. *)
Lemma dispatch_ok (ev : Event) (w : World) :
  timers_ok w ->
  exists w', dispatch ev w = Normal (tt, w') /\ timers_ok w'.
Proof.
  unfold timers_ok. open_world w.
  intros [[Href Htm] | (h & due & Href & Htm)]; cbn in Href, Htm; subst;
    destruct ev as [| | | | [] | | | | | | | | | | y | l | ms];
    nav_cases;
    eexists; (split; [reflexivity |]);
    first [ left; split; reflexivity
          | right; eexists; eexists; split; reflexivity ].
Qed.

Lemma reachable_timers_ok (w : World) : reachable w -> timers_ok w.
Proof.
  induction 1 as [l y | w ev w' _ IH Hstep].
  - left. split; reflexivity.
  - destruct (dispatch_ok ev w IH) as (w1 & Hrun & Hok).
    rewrite Hrun in Hstep. injection Hstep as <-. exact Hok.
Qed.

Lemma reachable_run (evs : list Event) (w w' : World) :
  reachable w -> run evs w = Normal (tt, w') -> reachable w'.
Proof.
  revert w. induction evs as [| ev evs IH]; intros w Hw Hrun.
  - cbn in Hrun. injection Hrun as <-. exact Hw.
  - rewrite run_cons in Hrun.
    destruct (dispatch ev w) as [[[] w1] | e] eqn:Hstep; [| discriminate].
    apply (IH w1); [| exact Hrun].
    apply (reachable_step w ev w1 Hw Hstep).
Qed.

(** *** Cart and wishlist drawers *)

Lemma drawer_call_effect (c : DrawerCall) (w : World) :
  exists w',
    dispatch (drawerEvent c) w = Normal (tt, w')
    /\ isCartDrawerOpen (state w') && isWishlistDrawerOpen (state w') = false
    /\ match c with
       | OpenCart =>
           isCartDrawerOpen (state w') = true
           /\ isWishlistDrawerOpen (state w') = false
       | OpenWishlist =>
           isWishlistDrawerOpen (state w') = true
           /\ isCartDrawerOpen (state w') = false
       | CloseCart =>
           isCartDrawerOpen (state w') = false
           /\ isWishlistDrawerOpen (state w') = isWishlistDrawerOpen (state w)
       | CloseWishlist =>
           isWishlistDrawerOpen (state w') = false
           /\ isCartDrawerOpen (state w') = isCartDrawerOpen (state w)
       end.
Proof.
  open_world w. destruct c; nav_step; eexists;
    (split; [reflexivity |]); nav_step;
    repeat split; auto using andb_false_r.
Qed.

Lemma drawer_calls_run (calls : list DrawerCall) (w : World) :
  isCartDrawerOpen (state w) && isWishlistDrawerOpen (state w) = false ->
  exists w',
    run (map drawerEvent calls) w = Normal (tt, w')
    /\ isCartDrawerOpen (state w') && isWishlistDrawerOpen (state w') = false.
Proof.
  revert w. induction calls as [| c calls IH]; intros w Hw.
  - exists w. split; [reflexivity | exact Hw].
  - destruct (drawer_call_effect c w) as (w1 & Hrun & Hex & _).
    cbn [map]. rewrite run_cons, Hrun. apply IH, Hex.
Qed.

(** C1. Start from the freshly mounted bar, where both drawers are
    closed, and make any sequence of open-cart, open-wishlist, close-cart
    and close-wishlist calls followed by one more call [c].  Before and
    after [c] at most one of the two drawers is on screen; if [c] opens a
    drawer the other one is closed afterwards, and if [c] closes a drawer
    the other one is as it was. *)
Theorem exclusive_drawers (l : Layout) (y : Q)
    (calls : list DrawerCall) (c : DrawerCall) :
  cartDrawerView (render (state (mount l y))) = false
  /\ wishlistDrawerView (render (state (mount l y))) = false
  /\ exists w w',
       run (map drawerEvent calls) (mount l y) = Normal (tt, w)
       /\ dispatch (drawerEvent c) w = Normal (tt, w')
       /\ cartDrawerView (render (state w))
          && wishlistDrawerView (render (state w)) = false
       /\ cartDrawerView (render (state w'))
          && wishlistDrawerView (render (state w')) = false
       /\ match c with
          | OpenCart =>
              cartDrawerView (render (state w')) = true
              /\ wishlistDrawerView (render (state w')) = false
          | OpenWishlist =>
              wishlistDrawerView (render (state w')) = true
              /\ cartDrawerView (render (state w')) = false
          | CloseCart =>
              cartDrawerView (render (state w')) = false
              /\ wishlistDrawerView (render (state w'))
                 = wishlistDrawerView (render (state w))
          | CloseWishlist =>
              wishlistDrawerView (render (state w')) = false
              /\ cartDrawerView (render (state w'))
                 = cartDrawerView (render (state w))
          end.
Proof.
  split; [reflexivity |]. split; [reflexivity |].
  destruct (drawer_calls_run calls (mount l y) eq_refl) as (w & Hrun & Hex).
  destruct (drawer_call_effect c w) as (w' & Hstep & Hex' & Heff).
  exists w, w'. cbn [render cartDrawerView wishlistDrawerView].
  repeat split; try assumption; destruct c; apply Heff.
Qed.

(** *** Search bar and mega menu *)

(** C9, as the code has it.  When the search bar is closed and the search
    button, the header or the wrapper is not mounted (its ref is null),
    [handleSearchToggle] returns normally (it throws nothing), the search
    bar is open afterwards, no style is stored, and the bar is drawn with
    [left], [top] and [width] undefined. *)
Theorem search_opens_without_measurements (w : World) :
  isSearchBarOpen (state w) = false ->
  searchButtonRef (refs w) = None \/ headerRef (refs w) = None
  \/ wrapperRef (refs w) = None ->
  exists w' shown,
    handleSearchToggle w = Normal (tt, w')
    /\ isSearchBarOpen (state w') = true
    /\ searchBarStyle (state w') = None
    /\ searchBarView (render (state w')) = Some shown
    /\ CSSProperties.left shown = None
    /\ CSSProperties.top shown = None
    /\ CSSProperties.width shown = None.
Proof.
  open_world w. cbn [state refs isSearchBarOpen searchButtonRef headerRef wrapperRef].
  intros Hclosed Hmissing. nav_step. rewrite Hclosed.
  assert (Hguard : negb (truthy br) || negb (truthy hr) || negb (truthy wr) = true).
  { destruct Hmissing as [-> | [-> | ->]]; cbn;
      rewrite ?orb_true_r; reflexivity. }
  unfold truthy in Hguard. rewrite Hguard. nav_step.
  eexists. eexists. split; [reflexivity |].
  cbn. repeat split.
Qed.

Lemma search_opens_without_measurements_witness :
  exists w' shown,
    handleSearchToggle (mount noButtonLayout 0) = Normal (tt, w')
    /\ isSearchBarOpen (state w') = true
    /\ searchBarStyle (state w') = None
    /\ searchBarView (render (state w')) = Some shown
    /\ CSSProperties.left shown = None
    /\ CSSProperties.top shown = None
    /\ CSSProperties.width shown = None.
Proof.
  apply (search_opens_without_measurements (mount noButtonLayout 0)).
  - reflexivity.
  - left. reflexivity.
Defined.


Lemma currentMegaItem_id (s : State) (item : PrimaryNavItem) :
  currentMegaItem s = Some item -> activeDesktopMenu s = Some (id item).
Proof.
  unfold currentMegaItem. destruct (activeDesktopMenu s) as [a |]; [| discriminate].
  intros Hfind. apply find_some in Hfind as [_ Heq].
  apply andb_true_iff in Heq as [Heq _].
  destruct (id item), a; try discriminate; reflexivity.
Qed.

Lemma panel_needs_search_closed (s : State) (item : PrimaryNavItem) :
  desktopMegaMenuView (render s) = Some item ->
  activeDesktopMenu s = Some (id item) /\ isSearchBarOpen s = false.
Proof.
  cbn [render desktopMegaMenuView].
  destruct (currentMegaItem s) as [cur |] eqn:Hcur; [| discriminate].
  destruct (isSearchBarOpen s); [discriminate |]. cbn [negb].
  intros Hshown. split; [| reflexivity].
  assert (cur = item) as <-.
  { unfold DesktopMegaMenu in Hshown.
    destruct (columns cur) as [[| c cs] |]; congruence. }
  apply currentMegaItem_id, Hcur.
Qed.

(** C10. In every state of the bar, reachable or not, the mega-menu panel
    and the search bar are not drawn together, and a panel that is drawn
    belongs to the active menu while the search bar is closed.  A click
    on the search button while the bar is closed opens it and clears the
    active menu; a pointer entering a navigation button while the bar is
    open leaves the bar open and draws no panel. *)
Theorem panel_and_search_exclusive (w : World) (itemId : PrimaryNavItemId) :
  (searchBarView (render (state w)) = None
   \/ desktopMegaMenuView (render (state w)) = None)
  /\ (forall item,
        desktopMegaMenuView (render (state w)) = Some item ->
        activeDesktopMenu (state w) = Some (id item)
        /\ isSearchBarOpen (state w) = false)
  /\ exists w',
       if isSearchBarOpen (state w)
       then dispatch (NavButtonMouseEnter itemId) w = Normal (tt, w')
            /\ isSearchBarOpen (state w') = true
            /\ activeDesktopMenu (state w')
               = (if hasPanel itemId then Some itemId else None)
            /\ desktopMegaMenuView (render (state w')) = None
       else dispatch SearchButtonClick w = Normal (tt, w')
            /\ isSearchBarOpen (state w') = true
            /\ activeDesktopMenu (state w') = None
            /\ desktopMegaMenuView (render (state w')) = None.
Proof.
  split; [| split].
  - cbn [render searchBarView desktopMegaMenuView].
    destruct (isSearchBarOpen (state w)); [right | left; reflexivity].
    destruct (currentMegaItem (state w)); reflexivity.
  - intros item. apply panel_needs_search_closed.
  - open_world w. cbn [state isSearchBarOpen].
    destruct (isSearchBarOpen s) eqn:Hopen.
    + destruct itemId; nav_cases; eexists; (split; [reflexivity |]);
        cbn [render desktopMegaMenuView state isSearchBarOpen activeDesktopMenu];
        rewrite ?Hopen; repeat split;
        try match goal with
            | |- context [currentMegaItem ?st] => destruct (currentMegaItem st)
            end;
        reflexivity.
    + nav_step. rewrite Hopen.
      destruct br, hr, wr; nav_step; eexists; (split; [reflexivity |]);
        repeat split.
Qed.

(** *** Hover menu *)

(** C2. The bar shows the panel of [A].  The pointer leaves the hover
    zone, which arms the 140 ms close timer.

    - If the pointer comes back after events [between] during which less
      than 140 ms pass, the timer is cancelled: whatever follows outside
      the pointer's reach ([later], of any duration), the panel of [A]
      stays and no timer callback runs.
    - If the pointer stays away during the events [away], the panel of
      [A] stays as long as less than 140 ms have passed; once 140 ms have
      passed the menu is closed, the callback has run exactly once (the
      log of fired timers grew by the one handle that was armed) and
      nothing is pending any more. *)
Theorem hover_debounce (w : World) (A : PrimaryNavItemId)
    (between later away : list Event) :
  reachable w ->
  activeDesktopMenu (state w) = Some A ->
  forallb pointerOutside between = true ->
  forallb pointerOutside later = true ->
  forallb pointerOutside away = true ->
  (elapsed between < 140)%N ->
  (exists w',
     run (WrapperMouseLeave :: between ++ WrapperMouseEnter :: later) w
     = Normal (tt, w')
     /\ activeDesktopMenu (state w') = Some A
     /\ fired (window w') = fired (window w)
     /\ idle w')
  /\ (exists w',
        run (WrapperMouseLeave :: away) w = Normal (tt, w')
        /\ if (140 <=? elapsed away)%N
           then activeDesktopMenu (state w') = None
                /\ fired (window w') = nextTimerId (window w) :: fired (window w)
                /\ idle w'
           else activeDesktopMenu (state w') = Some A
                /\ fired (window w') = fired (window w)).
Proof.
  intros Hreach HA Hbetween Hlater Haway Hshort.
  destruct (leave_arms w (reachable_timers_ok w Hreach))
    as (w1 & Hleave & Harm & Hs1 & Hf1 & Hn1).
  assert (Hlt : now (window w1) < now (window w) + 140) by lia.
  split.
  - destruct (run_outside_armed between _ _ w1 Hbetween Harm Hlt)
      as (w2 & Hrun2 & Hn2 & Hcase).
    destruct (Z.leb_spec (now (window w) + 140)
                (now (window w1) + Z.of_N (elapsed between))) as [| _]; [lia |].
    destruct Hcase as (Harm2 & Ha2 & Hf2).
    assert (Hok2 : timers_ok w2) by (right; eauto).
    destruct (enter_disarms w2 Hok2) as (w3 & Henter & Hi3 & Hs3 & Hf3 & Hn3).
    destruct (run_outside_idle later w3 Hlater Hi3)
      as (w4 & Hrun4 & Hi4 & Ha4 & Hf4 & Hn4).
    exists w4. split.
    + rewrite run_cons.
      change (dispatch WrapperMouseLeave w) with (scheduleMegaMenuClose w).
      rewrite Hleave.
      rewrite (run_app between (WrapperMouseEnter :: later) w1 w2 Hrun2).
      rewrite run_cons.
      change (dispatch WrapperMouseEnter w2) with (clearMegaMenuCloseTimeout w2).
      rewrite Henter. exact Hrun4.
    + repeat split; try apply Hi4; congruence.
  - destruct (run_outside_armed away _ _ w1 Haway Harm Hlt)
      as (w2 & Hrun2 & Hn2 & Hcase).
    exists w2. split.
    + rewrite run_cons.
      change (dispatch WrapperMouseLeave w) with (scheduleMegaMenuClose w).
      rewrite Hleave. exact Hrun2.
    + destruct (N.leb_spec 140 (elapsed away)) as [Hlong | Hnot];
        destruct (Z.leb_spec (now (window w) + 140)
                    (now (window w1) + Z.of_N (elapsed away))); try lia.
      * destruct Hcase as (Hi & Ha & Hf). repeat split; try apply Hi; congruence.
      * destruct Hcase as (_ & Ha & Hf). split; congruence.
Qed.

Lemma menOpen_reachable : reachable menOpen.
Proof.
  apply (reachable_step (mount desktopLayout 0) (NavButtonMouseEnter men) menOpen).
  - apply reachable_mount.
  - reflexivity.
Qed.

Lemma hover_debounce_witness :
  (exists w',
     run (WrapperMouseLeave :: [Elapse 100; WindowScroll 40; Elapse 39]
            ++ WrapperMouseEnter :: [Elapse 5000]) menOpen
     = Normal (tt, w')
     /\ activeDesktopMenu (state w') = Some men
     /\ fired (window w') = fired (window menOpen)
     /\ idle w')
  /\ (exists w',
        run (WrapperMouseLeave :: [Elapse 100; Elapse 40; Elapse 300]) menOpen
        = Normal (tt, w')
        /\ if (140 <=? elapsed [Elapse 100; Elapse 40; Elapse 300])%N
           then activeDesktopMenu (state w') = None
                /\ fired (window w')
                   = nextTimerId (window menOpen) :: fired (window menOpen)
                /\ idle w'
           else activeDesktopMenu (state w') = Some men
                /\ fired (window w') = fired (window menOpen)).
Proof.
  apply (hover_debounce menOpen men
           [Elapse 100; WindowScroll 40; Elapse 39] [Elapse 5000]
           [Elapse 100; Elapse 40; Elapse 300]).
  - exact menOpen_reachable.
  - reflexivity.
  - reflexivity.
  - reflexivity.
  - reflexivity.
  - reflexivity.
Defined.

Lemma hover_item_disarms (B : PrimaryNavItemId) (w : World) :
  timers_ok w ->
  hasPanel B = true ->
  exists w',
    dispatch (NavButtonMouseEnter B) w = Normal (tt, w')
    /\ activeDesktopMenu (state w') = Some B
    /\ idle w'
    /\ fired (window w') = fired (window w)
    /\ now (window w') = now (window w).
Proof.
  unfold timers_ok. open_world w.
  intros [[Href Htm] | (h & due & Href & Htm)] HB; cbn in Href, Htm; subst;
    destruct B; try discriminate HB; nav_cases;
    eexists; repeat split.
Qed.

(** C6. The bar shows the panel of [A], with or without a close pending.
    When the pointer enters the button of an item [B] that has a panel,
    the handler returns with the panel of [B] active and the clock where
    it was; the pending close, if any, is gone: the ref is [null], the
    timer queue is empty, and whatever happens afterwards outside the
    pointer's reach ([later], of any duration) the panel of [B] stays and
    no timer callback runs. *)
Theorem hover_switch (w : World) (A B : PrimaryNavItemId) (later : list Event) :
  reachable w ->
  activeDesktopMenu (state w) = Some A ->
  hasPanel B = true ->
  forallb pointerOutside later = true ->
  exists w' w'',
    dispatch (NavButtonMouseEnter B) w = Normal (tt, w')
    /\ activeDesktopMenu (state w') = Some B
    /\ now (window w') = now (window w)
    /\ idle w'
    /\ run later w' = Normal (tt, w'')
    /\ activeDesktopMenu (state w'') = Some B
    /\ fired (window w'') = fired (window w).
Proof.
  intros Hreach _ HB Hlater.
  destruct (hover_item_disarms B w (reachable_timers_ok w Hreach) HB)
    as (w1 & Hstep & Ha1 & Hi1 & Hf1 & Hn1).
  destruct (run_outside_idle later w1 Hlater Hi1)
    as (w2 & Hrun & Hi2 & Ha2 & Hf2 & Hn2).
  exists w1, w2. repeat split; try apply Hi1; congruence.
Qed.

Lemma menLeaving_reachable : reachable menLeaving.
Proof.
  apply (reachable_run [WrapperMouseLeave; Elapse 100] menOpen menLeaving).
  - exact menOpen_reachable.
  - reflexivity.
Qed.

Lemma hover_switch_witness :
  armed 1 140 menLeaving
  /\ exists w' w'',
       dispatch (NavButtonMouseEnter women) menLeaving = Normal (tt, w')
       /\ activeDesktopMenu (state w') = Some women
       /\ now (window w') = now (window menLeaving)
       /\ idle w'
       /\ run [Elapse 40; Elapse 1000] w' = Normal (tt, w'')
       /\ activeDesktopMenu (state w'') = Some women
       /\ fired (window w'') = fired (window menLeaving).
Proof.
  split; [split; reflexivity |].
  apply (hover_switch menLeaving men women [Elapse 40; Elapse 1000]).
  - exact menLeaving_reachable.
  - reflexivity.
  - reflexivity.
  - reflexivity.
Defined.

(** *** Search overlay placement *)

Lemma search_toggle_places (w : World) (btn hdr wrap : DOMRect.t) :
  isSearchBarOpen (state w) = false ->
  searchButtonRef (refs w) = Some btn ->
  headerRef (refs w) = Some hdr ->
  wrapperRef (refs w) = Some wrap ->
  exists w' st,
    handleSearchToggle w = Normal (tt, w')
    /\ isSearchBarOpen (state w') = true
    /\ activeDesktopMenu (state w') = None
    /\ searchBarStyle (state w') = Some st
    /\ CSSProperties.width st = Some (computedWidthAt (innerWidth (window w)))
    /\ CSSProperties.left st = Some (leftAt (innerWidth (window w)) btn)
    /\ CSSProperties.top st
       = Some (Qmax 0 (DOMRect.bottom hdr - DOMRect.top wrap + 8)%Q).
Proof.
  open_world w. cbn [state refs window isSearchBarOpen searchButtonRef
                       headerRef wrapperRef innerWidth].
  intros Hclosed -> -> ->. nav_step. rewrite Hclosed. nav_step.
  eexists. eexists. split; [reflexivity |]. cbn. repeat split.
Qed.

Lemma computedWidth_floor (vw : Z) :
  Qfloor (inject_Z vw * 0.44) = vw * 44 / 100.
Proof. reflexivity. Qed.

Lemma computedWidth_clamp (vw : Z) :
  computedWidthAt vw = clamp (Qfloor (inject_Z vw * 0.44)) 320 800.
Proof.
  unfold computedWidthAt, clamp.
  destruct (Z.ltb_spec (Qfloor (inject_Z vw * 0.44)) 320);
    [| destruct (Z.ltb_spec 800 (Qfloor (inject_Z vw * 0.44)))]; lia.
Qed.

Lemma interval_nonempty_iff (vw : Z) :
  12 <= vw - computedWidthAt vw - 12 <-> 344 <= vw.
Proof.
  unfold computedWidthAt. rewrite computedWidth_floor.
  Z.to_euclidean_division_equations. lia.
Qed.

Lemma leftAt_bounds (vw : Z) (btn : DOMRect.t) :
  let naive := naiveLeftAt vw btn in
  let hi := inject_Z (vw - computedWidthAt vw - 12) in
  (12 <= leftAt vw btn)%Q
  /\ ((12 <= hi)%Q ->
      (leftAt vw btn <= hi)%Q
      /\ ((naive < 12)%Q -> (leftAt vw btn == 12)%Q)
      /\ ((hi < naive)%Q -> (leftAt vw btn == hi)%Q)
      /\ ((12 <= naive)%Q -> (naive <= hi)%Q -> (leftAt vw btn == naive)%Q))
  /\ ((hi < 12)%Q -> (leftAt vw btn == 12)%Q).
Proof.
  intros naive hi. unfold leftAt. fold naive. fold hi.
  destruct (Q.min_spec naive hi) as [[Hlt Hmin] | [Hle Hmin]];
    destruct (Q.max_spec 12 (Qmin naive hi)) as [[Hlt' Hmax] | [Hle' Hmax]];
    rewrite Hmax; rewrite Hmin in *;
    repeat split; intros; try lra.
Qed.



(** C4, as the code has it.  In a 1440 px viewport with the trigger at
    x = 700, 20 px wide, [floor(1440 * 0.44)] is [floor(633.6) = 633], so
    the stored width is 633, naive centering gives 700 + 10 - 316.5 =
    393.5, the bounds are [12, 795], and the stored [left] is 393.5. *)
Theorem end_to_end_placement (w : World) (btn hdr wrap : DOMRect.t) :
  isSearchBarOpen (state w) = false ->
  searchButtonRef (refs w) = Some btn ->
  headerRef (refs w) = Some hdr ->
  wrapperRef (refs w) = Some wrap ->
  innerWidth (window w) = 1440 ->
  (DOMRect.left btn == 700)%Q ->
  (DOMRect.width btn == 20)%Q ->
  exists w' st left,
    handleSearchToggle w = Normal (tt, w')
    /\ searchBarStyle (state w') = Some st
    /\ Qfloor (inject_Z 1440 * 0.44) = 633
    /\ CSSProperties.width st = Some (clamp 633 320 800)
    /\ clamp 633 320 800 = 633
    /\ CSSProperties.left st = Some left
    /\ (DOMRect.left btn + DOMRect.width btn / 2 - inject_Z 633 / 2 == 393.5)%Q
    /\ 1440 - 633 - 12 = 795
    /\ (12 <= 393.5 <= inject_Z 795)%Q
    /\ (left == 393.5)%Q.
Proof.
  intros Hclosed Hbtn Hhdr Hwrap Hvw Hl Hwd.
  destruct (search_toggle_places w btn hdr wrap Hclosed Hbtn Hhdr Hwrap)
    as (w' & st & Hrun & _ & _ & Hst & Hwidth & Hleft & _).
  rewrite Hvw in Hwidth, Hleft.
  assert (Hnaive : (naiveLeftAt 1440 btn == 393.5)%Q).
  { unfold naiveLeftAt. rewrite Hl, Hwd. reflexivity. }
  exists w', st, (leftAt 1440 btn).
  split; [exact Hrun |]. split; [exact Hst |].
  split; [reflexivity |]. split; [exact Hwidth |].
  split; [reflexivity |]. split; [exact Hleft |].
  split; [exact Hnaive |]. split; [reflexivity |].
  split; [split; discriminate |].
  destruct (leftAt_bounds 1440 btn) as (_ & Hin & _).
  destruct (Hin ltac:(discriminate)) as (_ & _ & _ & Hsame).
  rewrite <- Hnaive. apply Hsame; rewrite Hnaive; discriminate.
Qed.

Lemma end_to_end_placement_witness :
  exists w' st left,
    handleSearchToggle (mount desktopLayout 0) = Normal (tt, w')
    /\ searchBarStyle (state w') = Some st
    /\ Qfloor (inject_Z 1440 * 0.44) = 633
    /\ CSSProperties.width st = Some (clamp 633 320 800)
    /\ clamp 633 320 800 = 633
    /\ CSSProperties.left st = Some left
    /\ (700 + 20 / 2 - inject_Z 633 / 2 == 393.5)%Q
    /\ 1440 - 633 - 12 = 795
    /\ (12 <= 393.5 <= inject_Z 795)%Q
    /\ (left == 393.5)%Q.
Proof.
  apply (end_to_end_placement (mount desktopLayout 0)
           (rect 700 55 20 79) (rect 0 35 1440 100) (rect 0 35 1440 100));
    reflexivity.
Defined.

(** C4 as stated fails at its own input: the stored width is 633, not
    634, and the stored [left] is 393.5, not 393. *)
Lemma end_to_end_not_634_393 :
  exists w' st left,
    handleSearchToggle (mount desktopLayout 0) = Normal (tt, w')
    /\ searchBarStyle (state w') = Some st
    /\ CSSProperties.width st = Some 633
    /\ CSSProperties.width st <> Some 634
    /\ CSSProperties.left st = Some left
    /\ ~ (left == 393)%Q.
Proof.
  destruct (search_toggle_places (mount desktopLayout 0)
              (rect 700 55 20 79) (rect 0 35 1440 100) (rect 0 35 1440 100)
              eq_refl eq_refl eq_refl eq_refl)
    as (w' & st & Hrun & _ & _ & Hst & Hwidth & Hleft & _).
  exists w', st, (leftAt 1440 (rect 700 55 20 79)).
  split; [exact Hrun |]. split; [exact Hst |].
  split; [exact Hwidth |].
  split; [rewrite Hwidth; discriminate |].
  split; [exact Hleft |].
  intros H. vm_compute in H. discriminate H.
Qed.

(** C9 as stated fails for elements that are mounted but have no size.
    With every rectangle zero in a 1440 px viewport the guard lets the
    call through: a style is stored and the bar is drawn with [left] 12,
    [top] 8 and [width] 633, not with the three undefined. *)
Lemma zero_size_is_measured :
  exists w' st shown l t,
    handleSearchToggle (mount zeroSizeLayout 0) = Normal (tt, w')
    /\ isSearchBarOpen (state w') = true
    /\ searchBarStyle (state w') = Some st
    /\ searchBarView (render (state w')) = Some shown
    /\ CSSProperties.left shown = Some l /\ (l == 12)%Q
    /\ CSSProperties.top shown = Some t /\ (t == 8)%Q
    /\ CSSProperties.width shown = Some 633
    /\ CSSProperties.left shown <> None
    /\ CSSProperties.top shown <> None
    /\ CSSProperties.width shown <> None.
Proof.
  destruct (search_toggle_places (mount zeroSizeLayout 0)
              (rect 0 0 0 0) (rect 0 0 0 0) (rect 0 0 0 0)
              eq_refl eq_refl eq_refl eq_refl)
    as (w' & st & Hrun & Hopen & _ & Hst & Hwidth & Hleft & Htop).
  exists w', st, (SearchBar (Some st)),
    (leftAt 1440 (rect 0 0 0 0)), (Qmax 0 (0 - 0 + 8)).
  split; [exact Hrun |]. split; [exact Hopen |]. split; [exact Hst |].
  split; [cbn [render searchBarView]; rewrite Hopen, Hst; reflexivity |].
  cbn [SearchBar CSSProperties.left CSSProperties.top CSSProperties.width].
  rewrite Hleft, Htop, Hwidth.
  repeat split; try reflexivity; discriminate.
Qed.

(** *** Invariants of the reachable worlds *)

Lemma reachable_invariant (P : World -> Prop) :
  (forall l y, P (mount l y)) ->
  (forall w ev w',
      timers_ok w -> P w -> dispatch ev w = Normal (tt, w') -> P w') ->
  forall w, reachable w -> P w.
Proof.
  intros Hmount Hstep w Hreach.
  induction Hreach as [l y | w ev w' Hreach IH Hrun].
  - apply Hmount.
  - apply (Hstep w ev w' (reachable_timers_ok w Hreach) IH Hrun).
Qed.

(** Split on the shape of the timer queue and open the world. *)
Ltac by_timers Hok w :=
  let Href := fresh "Href" in
  let Htm := fresh "Htm" in
  unfold timers_ok in Hok; open_world w;
  destruct Hok as [[Href Htm] | (?h & ?due & Href & Htm)];
  cbn in Href, Htm; subst.

Ltac leb_facts :=
  repeat match goal with
         | H : (_ <=? _) = true |- _ => apply Z.leb_le in H
         | H : (_ <=? _) = false |- _ => apply Z.leb_gt in H
         end.

Lemma pending_ok_step (w : World) (ev : Event) (w' : World) :
  timers_ok w -> pending_ok w -> dispatch ev w = Normal (tt, w') -> pending_ok w'.
Proof.
  intros Hok HP Hstep. revert HP Hstep. unfold pending_ok. by_timers Hok w;
    cbn [refs window megaMenuCloseTimeoutRef timers now nextTimerId];
    intros HP; [| destruct HP as (due' & Heq & Hdue & Hh); injection Heq as <-];
    destruct ev as [| | | | [] | | | | | | | | | | y | l | ms];
    nav_cases; intros Hstep; injection Hstep as <-; nav_step; leb_facts;
    try reflexivity;
    try (eexists; split; [reflexivity | lia]).
Qed.

Lemma reachable_pending_ok (w : World) : reachable w -> pending_ok w.
Proof.
  apply reachable_invariant; [reflexivity |].
  intros w0 ev w' Hok HP Hstep. apply (pending_ok_step w0 ev w' Hok HP Hstep).
Qed.

(** X6. In every reachable world at most one timeout is pending.  With
    [megaMenuCloseTimeoutRef] null the timer queue is empty; otherwise the
    queue holds exactly the timer the ref names, that timer closes the
    menu, it is due in the future and no later than 140 ms from now. *)
Theorem one_pending_close (w : World) :
  reachable w ->
  (List.length (timers (window w)) <= 1)%nat
  /\ match megaMenuCloseTimeoutRef (refs w) with
     | None => timers (window w) = []
     | Some h =>
         exists due,
           timers (window w)
           = [{| handle := h; deadline := due; callback := CloseMegaMenu |}]
           /\ now (window w) < due <= now (window w) + 140
     end.
Proof.
  intros Hreach. pose proof (reachable_pending_ok w Hreach) as HP.
  unfold pending_ok in HP.
  destruct (megaMenuCloseTimeoutRef (refs w)) as [h |].
  - destruct HP as (due & Htm & Hdue & _). rewrite Htm.
    split; [cbn; lia |]. exists due. split; [reflexivity | exact Hdue].
  - rewrite HP. split; [cbn; lia | reflexivity].
Qed.

Lemma one_pending_close_witness :
  (List.length (timers (window menLeaving)) <= 1)%nat
  /\ match megaMenuCloseTimeoutRef (refs menLeaving) with
     | None => timers (window menLeaving) = []
     | Some h =>
         exists due,
           timers (window menLeaving)
           = [{| handle := h; deadline := due; callback := CloseMegaMenu |}]
           /\ now (window menLeaving) < due <= now (window menLeaving) + 140
     end.
Proof. apply (one_pending_close menLeaving). exact menLeaving_reachable. Defined.

(** X7. A pending close always fires: from a reachable world whose ref
    names the timer [h], once 140 ms have passed with the pointer outside
    the hover zone, the menu is closed, the callback of [h] has run once,
    and nothing is pending. *)
Theorem pending_close_fires (w : World) (h : TimerId) (away : list Event) :
  reachable w ->
  megaMenuCloseTimeoutRef (refs w) = Some h ->
  forallb pointerOutside away = true ->
  (140 <= elapsed away)%N ->
  exists w',
    run away w = Normal (tt, w')
    /\ activeDesktopMenu (state w') = None
    /\ fired (window w') = h :: fired (window w)
    /\ idle w'.
Proof.
  intros Hreach Href Haway Hlong.
  pose proof (reachable_pending_ok w Hreach) as HP. unfold pending_ok in HP.
  rewrite Href in HP. destruct HP as (due & Htm & Hdue & _).
  assert (Harm : armed h due w) by (split; assumption).
  destruct (run_outside_armed away h due w Haway Harm ltac:(lia))
    as (w' & Hrun & _ & Hcase).
  destruct (Z.leb_spec due (now (window w) + Z.of_N (elapsed away))); [| lia].
  destruct Hcase as (Hi & Ha & Hf).
  exists w'. repeat split; try assumption; apply Hi.
Qed.

Lemma pending_close_fires_witness :
  exists w',
    run [Elapse 10; CartDrawerClose; Elapse 130] menLeaving = Normal (tt, w')
    /\ activeDesktopMenu (state w') = None
    /\ fired (window w') = 1 :: fired (window menLeaving)
    /\ idle w'.
Proof.
  apply (pending_close_fires menLeaving 1 [Elapse 10; CartDrawerClose; Elapse 130]).
  - exact menLeaving_reachable.
  - reflexivity.
  - reflexivity.
  - discriminate.
Defined.

(** X8. No handler of the bar ever throws: from a reachable world every
    sequence of events runs to a normal completion, in a reachable world. *)
Theorem handlers_never_throw (w : World) (evs : list Event) :
  reachable w ->
  exists w', run evs w = Normal (tt, w') /\ reachable w'.
Proof.
  revert w. induction evs as [| ev evs IH]; intros w Hreach.
  - exists w. split; [reflexivity | exact Hreach].
  - destruct (dispatch_ok ev w (reachable_timers_ok w Hreach)) as (w1 & Hstep & _).
    destruct (IH w1 (reachable_step w ev w1 Hreach Hstep)) as (w' & Hrun & Hreach').
    exists w'. rewrite run_cons, Hstep. split; assumption.
Qed.

Lemma handlers_never_throw_witness :
  exists w',
    run [SearchButtonClick; NavButtonMouseEnter help; WrapperMouseLeave; Elapse 200]
      (mount noButtonLayout 0)
    = Normal (tt, w')
    /\ reachable w'.
Proof.
  apply (handlers_never_throw (mount noButtonLayout 0)). apply reachable_mount.
Defined.

Lemma computedWidth_range (vw : Z) : 320 <= computedWidthAt vw <= 800.
Proof. unfold computedWidthAt. lia. Qed.

(** X9. In every reachable world a stored search-bar style means the
    search bar is open (so the style is null whenever the bar is closed),
    and the style is well formed: absolutely positioned on layer 72, with
    [left >= 12], [top >= 0] and [320 <= width <= 800]. *)
Theorem search_style_invariant (w : World) :
  reachable w ->
  match searchBarStyle (state w) with
  | None => True
  | Some st => isSearchBarOpen (state w) = true /\ style_ok st
  end.
Proof.
  revert w. apply reachable_invariant; [intros l y; exact I |].
  intros w ev w' Hok HP Hstep. revert HP Hstep.
  by_timers Hok w; cbn [state searchBarStyle isSearchBarOpen]; intros HP;
    destruct ev as [| | | | [] | | | | | | | | | | y | l | ms];
    nav_cases; intros Hstep; injection Hstep as <-; nav_step;
    try exact HP; try exact I;
    (split; [reflexivity |]);
    (split; [reflexivity |]); (split; [reflexivity |]);
    eexists; eexists; eexists;
    (split; [reflexivity |]); (split; [reflexivity |]); (split; [reflexivity |]);
    (split; [apply Q.le_max_l |]); (split; [apply Q.le_max_l |]);
    apply computedWidth_range.
Qed.

Lemma search_style_invariant_witness :
  match searchBarStyle (state menLeaving) with
  | None => True
  | Some st => isSearchBarOpen (state menLeaving) = true /\ style_ok st
  end.
Proof. apply (search_style_invariant menLeaving). exact menLeaving_reachable. Defined.

(** X10. A click on the search button flips [isSearchBarOpen] and clears
    the active menu, in every world; closing the bar also drops the stored
    style.  The click touches neither the four drawers nor the refs, the
    clock or the timer queue, so a close that is pending stays pending. *)
Theorem search_toggle_flips (w : World) :
  exists w',
    dispatch SearchButtonClick w = Normal (tt, w')
    /\ isSearchBarOpen (state w') = negb (isSearchBarOpen (state w))
    /\ activeDesktopMenu (state w') = None
    /\ (if isSearchBarOpen (state w) then searchBarStyle (state w') = None else True)
    /\ isMobileMenuOpen (state w') = isMobileMenuOpen (state w)
    /\ isLocationDrawerOpen (state w') = isLocationDrawerOpen (state w)
    /\ isCartDrawerOpen (state w') = isCartDrawerOpen (state w)
    /\ isWishlistDrawerOpen (state w') = isWishlistDrawerOpen (state w)
    /\ refs w' = refs w
    /\ window w' = window w.
Proof.
  open_world w. nav_step. destruct (isSearchBarOpen s) eqn:Hopen;
    [| destruct br, hr, wr]; nav_step;
    eexists; (split; [reflexivity |]); nav_step; rewrite ?Hopen;
    repeat split.
Qed.

(** X11. When the pointer enters the button of an item without a panel,
    the menu closes at once and no panel is drawn; the handler does not
    touch the refs, the clock or the timer queue, so a close that is
    pending stays pending. *)
Theorem plain_link_hover_closes (w : World) (B : PrimaryNavItemId) :
  hasPanel B = false ->
  exists w',
    dispatch (NavButtonMouseEnter B) w = Normal (tt, w')
    /\ activeDesktopMenu (state w') = None
    /\ desktopMegaMenuView (render (state w')) = None
    /\ refs w' = refs w
    /\ window w' = window w.
Proof.
  intros HB. open_world w. destruct B; try discriminate HB.
  nav_step. eexists. split; [reflexivity |]. repeat split.
Qed.

Lemma plain_link_hover_closes_witness :
  exists w',
    dispatch (NavButtonMouseEnter sustainability) menLeaving = Normal (tt, w')
    /\ activeDesktopMenu (state w') = None
    /\ desktopMegaMenuView (render (state w')) = None
    /\ refs w' = refs menLeaving
    /\ window w' = window menLeaving.
Proof. apply (plain_link_hover_closes menLeaving sustainability). reflexivity. Defined.

Lemma active_has_panel (w : World) :
  reachable w ->
  match activeDesktopMenu (state w) with
  | Some a => hasPanel a = true
  | None => True
  end.
Proof.
  revert w. apply reachable_invariant; [intros l y; exact I |].
  intros w ev w' Hok HP Hstep. revert HP Hstep.
  by_timers Hok w; cbn [state activeDesktopMenu]; intros HP;
    destruct ev as [| | | | [] | | | | | | | | | | y | l | ms];
    nav_cases; intros Hstep; injection Hstep as <-; nav_step;
    first [exact HP | exact I | reflexivity].
Qed.

(** X12. In every reachable world the active menu, if any, belongs to an
    item with a panel; the panel of that item is drawn exactly when the
    search bar is closed, and the header is solid.  With no active menu no
    panel is drawn. *)
Theorem panel_drawn_iff (w : World) :
  reachable w ->
  match activeDesktopMenu (state w) with
  | Some a =>
      hasPanel a = true
      /\ desktopMegaMenuView (render (state w))
         = (if isSearchBarOpen (state w) then None else navItem a)
      /\ showSolid (state w) = true
  | None => desktopMegaMenuView (render (state w)) = None
  end.
Proof.
  intros Hreach. pose proof (active_has_panel w Hreach) as HP.
  unfold showSolid. cbn [render desktopMegaMenuView]. unfold currentMegaItem.
  destruct (activeDesktopMenu (state w)) as [a |]; [| reflexivity].
  split; [exact HP |].
  destruct a; try discriminate HP;
    destruct (isSearchBarOpen (state w));
    cbn; rewrite ?orb_true_r; split; reflexivity.
Qed.

Lemma panel_drawn_iff_witness :
  match activeDesktopMenu (state menLeaving) with
  | Some a =>
      hasPanel a = true
      /\ desktopMegaMenuView (render (state menLeaving))
         = (if isSearchBarOpen (state menLeaving) then None else navItem a)
      /\ showSolid (state menLeaving) = true
  | None => desktopMegaMenuView (render (state menLeaving)) = None
  end.
Proof. apply (panel_drawn_iff menLeaving). exact menLeaving_reachable. Defined.

Lemma elapses_outside (ds : list N) :
  forallb pointerOutside (map Elapse ds) = true.
Proof. induction ds as [| d ds IH]; [reflexivity | exact IH]. Qed.

(** X13. Unmounting cancels the pending close: after the cleanup of a
    reachable world nothing is pending, and however much time passes
    afterwards no timer callback runs and the active menu is not touched. *)
Theorem unmount_cancels_close (w : World) (ds : list N) :
  reachable w ->
  exists w' w'',
    unmount w = Normal (tt, w')
    /\ idle w'
    /\ state w' = state w
    /\ run (map Elapse ds) w' = Normal (tt, w'')
    /\ idle w''
    /\ activeDesktopMenu (state w'') = activeDesktopMenu (state w)
    /\ fired (window w'') = fired (window w).
Proof.
  intros Hreach.
  destruct (enter_disarms w (reachable_timers_ok w Hreach))
    as (w1 & Hrun & Hi & Hs & Hf & _).
  destruct (run_outside_idle (map Elapse ds) w1 (elapses_outside ds) Hi)
    as (w2 & Hrun2 & Hi2 & Ha2 & Hf2 & _).
  exists w1, w2. repeat split; try assumption; try apply Hi; try apply Hi2;
    congruence.
Qed.

Lemma unmount_cancels_close_witness :
  exists w' w'',
    unmount menLeaving = Normal (tt, w')
    /\ idle w'
    /\ state w' = state menLeaving
    /\ run (map Elapse [40; 1000]%N) w' = Normal (tt, w'')
    /\ idle w''
    /\ activeDesktopMenu (state w'') = activeDesktopMenu (state menLeaving)
    /\ fired (window w'') = fired (window menLeaving).
Proof.
  apply (unmount_cancels_close menLeaving [40; 1000]%N). exact menLeaving_reachable.
Defined.

(** X14. Each overlay flag changes only through its own controls: from a
    reachable world, an event other than the cart and wishlist buttons and
    their close controls leaves both drawers as they are; an event other
    than the hamburger button and the mobile menu's close control leaves
    the mobile menu as it is; an event other than the location button and
    the location drawer's close control leaves the location drawer as it
    is. *)
Theorem overlays_change_by_own_controls (w : World) (ev : Event) :
  reachable w ->
  exists w',
    dispatch ev w = Normal (tt, w')
    /\ match ev with
       | CartButtonClick | WishlistButtonClick
       | CartDrawerClose | WishlistDrawerClose => True
       | _ =>
           isCartDrawerOpen (state w') = isCartDrawerOpen (state w)
           /\ isWishlistDrawerOpen (state w') = isWishlistDrawerOpen (state w)
       end
    /\ match ev with
       | HamburgerClick | MobileMenuClose => True
       | _ => isMobileMenuOpen (state w') = isMobileMenuOpen (state w)
       end
    /\ match ev with
       | LocationButtonClick | LocationDrawerClose => True
       | _ => isLocationDrawerOpen (state w') = isLocationDrawerOpen (state w)
       end.
Proof.
  intros Hreach. pose proof (reachable_timers_ok w Hreach) as Hok.
  by_timers Hok w;
    destruct ev as [| | | | [] | | | | | | | | | | y | l | ms];
    nav_cases; eexists; (split; [reflexivity |]); nav_step;
    repeat split.
Qed.

Lemma overlays_change_by_own_controls_witness :
  exists w',
    dispatch SearchButtonClick menLeaving = Normal (tt, w')
    /\ (isCartDrawerOpen (state w') = isCartDrawerOpen (state menLeaving)
        /\ isWishlistDrawerOpen (state w') = isWishlistDrawerOpen (state menLeaving))
    /\ isMobileMenuOpen (state w') = isMobileMenuOpen (state menLeaving)
    /\ isLocationDrawerOpen (state w') = isLocationDrawerOpen (state menLeaving).
Proof.
  apply (overlays_change_by_own_controls menLeaving SearchButtonClick).
  exact menLeaving_reachable.
Defined.

(** X15. In every reachable world [isAtTop] tells whether the page is
    scrolled at most 8 px down: the flag is set at mount and on every
    scroll, and nothing else moves the page or the flag. *)
Theorem isAtTop_tracks_scroll (w : World) :
  reachable w ->
  isAtTop (state w) = Qle_bool (scrollY (window w)) 8.
Proof.
  revert w. apply reachable_invariant; [intros l y; reflexivity |].
  intros w ev w' Hok HP Hstep. revert HP Hstep.
  by_timers Hok w; cbn [state window isAtTop scrollY]; intros HP;
    destruct ev as [| | | | [] | | | | | | | | | | y | l | ms];
    nav_cases; intros Hstep; injection Hstep as <-; nav_step;
    first [exact HP | reflexivity].
Qed.

Lemma isAtTop_tracks_scroll_witness :
  isAtTop (state menLeaving) = Qle_bool (scrollY (window menLeaving)) 8.
Proof. apply (isAtTop_tracks_scroll menLeaving). exact menLeaving_reachable. Defined.

End NavBarProperties.

(** ** The fade-in observer *)

Section InViewProperties.

Import InView.

Lemma observerCallback_spec (entries : list IntersectionObserverEntry)
    (s : SectionState) :
  isVisible (observerCallback entries s)
  = isVisible s || existsb isIntersecting entries
  /\ observing (observerCallback entries s)
     = observing s && negb (existsb isIntersecting entries).
Proof.
  unfold observerCallback. revert s.
  induction entries as [| entry entries IH]; intros s.
  - cbn. rewrite orb_false_r, andb_true_r. split; reflexivity.
  - cbn [fold_left existsb]. destruct (isIntersecting entry).
    + destruct (IH (disconnect (setIsVisible true s))) as [Hv Ho].
      rewrite Hv, Ho. cbn. rewrite orb_true_r, andb_false_r. split; reflexivity.
    + destruct (IH s) as [Hv Ho]. rewrite Hv, Ho. split; reflexivity.
Qed.

Lemma deliverAll_spec (batches : list (list IntersectionObserverEntry))
    (s : SectionState) :
  observing s = negb (isVisible s) ->
  isVisible (deliverAll batches s)
  = isVisible s || existsb (existsb isIntersecting) batches
  /\ observing (deliverAll batches s) = negb (isVisible (deliverAll batches s)).
Proof.
  unfold deliverAll. revert s.
  induction batches as [| entries batches IH]; intros s Hs.
  - cbn. rewrite orb_false_r. split; [reflexivity | exact Hs].
  - cbn [fold_left existsb].
    assert (Hd : isVisible (deliver entries s)
                 = isVisible s || existsb isIntersecting entries
                 /\ observing (deliver entries s)
                    = negb (isVisible (deliver entries s))).
    { unfold deliver. destruct (observerCallback_spec entries s) as [Hv Ho].
      destruct (observing s) eqn:Hobs.
      - rewrite Hv, Ho. symmetry in Hs. apply negb_true_iff in Hs. rewrite Hs.
        split; reflexivity.
      - symmetry in Hs. apply negb_false_iff in Hs. rewrite Hs, Hobs.
        split; reflexivity. }
    destruct Hd as [Hv Ho]. destruct (IH (deliver entries s) Ho) as [Hv' Ho'].
    split; [rewrite Hv', Hv, orb_assoc; reflexivity | exact Ho'].
Qed.

Lemma deliverAll_disconnected (batches : list (list IntersectionObserverEntry))
    (s : SectionState) :
  observing s = false -> deliverAll batches s = s.
Proof.
  unfold deliverAll. induction batches as [| entries batches IH]; intros Hs.
  - reflexivity.
  - cbn [fold_left]. unfold deliver at 2. rewrite Hs. apply IH, Hs.
Qed.

(** X16. With a section element and an [IntersectionObserver], the section
    is visible after a series of deliveries exactly when one of the
    delivered entries was intersecting, and the observer is connected
    exactly while the section is not yet visible: once visible, always
    visible.  Without the element or without [IntersectionObserver], the
    section is visible from the start and nothing is observed. *)
Theorem visible_iff_seen (sectionRef : option HTMLElement) (hasObserver : bool)
    (batches : list (list IntersectionObserverEntry)) :
  let s := afterBatches sectionRef hasObserver batches in
  match sectionRef, hasObserver with
  | Some _, true =>
      isVisible s = existsb (existsb isIntersecting) batches
      /\ observing s = negb (isVisible s)
  | _, _ => isVisible s = true /\ observing s = false
  end.
Proof.
  unfold afterBatches. destruct sectionRef as [node |], hasObserver; cbn [effect];
    try (rewrite deliverAll_disconnected by reflexivity; split; reflexivity).
  apply (deliverAll_spec batches (observe initialSectionState)). reflexivity.
Qed.

End InViewProperties.

(** ** The parallax image *)

Section ParallaxProperties.

Import Parallax.

(** X17. While the image is on screen ([top < innerHeight] and
    [bottom > 0]) the ratio [(winH - top) / (winH + height)] has a positive
    denominator and lies strictly between 0 and 1, so the clamp to [0, 1]
    leaves it alone, and for a depth that is not negative the offset that
    [onScroll] writes lies within [50 * depth] of zero.  While the image
    is off screen [onScroll] leaves the offset as it is. *)
Theorem parallax_offset_bounded (rect : DOMRect) (innerHeight : Z)
    (depth transform : Q) :
  0 <= depth ->
  let winH := inject_Z innerHeight in
  let ratio := (winH - top rect) / (winH + height rect) in
  if Qltb (top rect) winH && Qltb 0 (bottom rect)
  then 0 < winH + height rect
       /\ 0 < ratio < 1
       /\ onScroll rect innerHeight depth transform == (ratio - 0.5) * depth * 100
       /\ - (50 * depth) <= onScroll rect innerHeight depth transform <= 50 * depth
  else onScroll rect innerHeight depth transform = transform.
Proof.
  intros Hdepth winH ratio. unfold onScroll. fold winH.
  destruct (Qltb (top rect) winH && Qltb 0 (bottom rect)) eqn:Hvis;
    cbn [negb]; [| reflexivity].
  apply andb_true_iff in Hvis as [Htop Hbottom].
  apply Qltb_lt in Htop, Hbottom. unfold bottom in Hbottom.
  assert (Hden : 0 < winH + height rect) by lra.
  assert (Hlow : 0 < ratio).
  { unfold ratio. apply Qlt_shift_div_l; [exact Hden | lra]. }
  assert (Hhigh : ratio < 1).
  { unfold ratio. apply Qlt_shift_div_r; [exact Hden | lra]. }
  fold ratio.
  assert (Hclamp : Qmin (Qmax ratio 0) 1 == ratio).
  { rewrite (Q.max_l ratio 0) by lra. apply Q.min_l. lra. }
  split; [exact Hden |]. split; [split; assumption |].
  rewrite Hclamp. split; [reflexivity |].
  split.
  - setoid_replace (- (50 * depth)) with ((0 - 0.5) * depth * 100) by ring.
    apply Qmult_le_compat_r; [| discriminate].
    apply Qmult_le_compat_r; [lra | exact Hdepth].
  - setoid_replace (50 * depth) with ((1 - 0.5) * depth * 100) by ring.
    apply Qmult_le_compat_r; [| discriminate].
    apply Qmult_le_compat_r; [lra | exact Hdepth].
Qed.

Lemma parallax_offset_bounded_witness :
  0 < inject_Z 900 + height sampleRect
  /\ 0 < (inject_Z 900 - top sampleRect) / (inject_Z 900 + height sampleRect) < 1
  /\ onScroll sampleRect 900 0.25 0
     == ((inject_Z 900 - top sampleRect) / (inject_Z 900 + height sampleRect) - 0.5)
        * 0.25 * 100
  /\ - (50 * 0.25) <= onScroll sampleRect 900 0.25 0 <= 50 * 0.25.
Proof.
  apply (parallax_offset_bounded sampleRect 900 0.25 0). discriminate.
Defined.

End ParallaxProperties.
